(** * LegendasTV subtitle provider: a shallow embedding

    Source: [lib/subliminal/providers/legendastv.py].

    The provider is Python 2 code working on dynamically typed values
    (parsed JSON, guessit dictionaries).  The embedding keeps that shape:
    a type [pyval] of Python values, dictionaries as [gmap string pyval],
    exceptions as an explicit [result] type, and the compiled regular
    expressions as values of a small backtracking matcher.

    Strings are byte strings ([string]); [lower], [isdigit] and the
    character classes of the matcher are the ASCII ones.  Floats are left
    out of [pyval]. *)

From stdpp Require Import gmap strings list fin_maps.
From Stdlib Require Import ZArith Ascii String Strings.Byte Sorted.

#[local] Set Warnings "-register-all".
#[local] Open Scope string_scope.

(** ** Exceptions and results *)

Inductive exn : Type :=
| KeyError
| TypeError
| AttributeError.

Inductive result (A : Type) : Type :=
| Ok (a : A)
| Raise (e : exn).

Arguments Ok {A} a.
Arguments Raise {A} e.

#[global] Instance result_ret : MRet result := fun A a => Ok a.
#[global] Instance result_bind : MBind result := fun A B f m =>
  match m with
  | Ok a => f a
  | Raise e => Raise e
  end.


(** ** Python values *)

Inductive pyval : Type :=
| PNone
| PBool (b : bool)
| PInt (z : Z)
| PStr (s : string)
| PList (l : list pyval)
| PDict (d : gmap string pyval).

(** [d.get(k)]: the value under [k], [None] when the key is absent. *)
Definition get (d : gmap string pyval) (k : string) : pyval :=
  default PNone (d !! k).

(** Truth value of an object, as [if v], [not v], [a and b] test it. *)
Definition truthy (v : pyval) : bool :=
  match v with
  | PNone => false
  | PBool b => b
  | PInt z => negb (z =? 0)%Z
  | PStr s => negb (String.eqb s "")
  | PList l => match l with [] => false | _ => true end
  | PDict d => match map_to_list d with [] => false | _ => true end
  end.

(** An optional integer argument ([None] or an [int]) as a value. *)
Definition of_opt (o : option Z) : pyval :=
  match o with
  | None => PNone
  | Some z => PInt z
  end.

(** [e != v] for [e] a [str]. *)
Definition str_ne (e : string) (v : pyval) : bool :=
  match v with
  | PStr s => negb (String.eqb e s)
  | _ => true
  end.

(** [e != v] for [e] either [None] or an [int]; a [bool] compares as the
    integer it is. *)
Definition int_ne (e : option Z) (v : pyval) : bool :=
  match e, v with
  | None, PNone => false
  | Some z, PInt z' => negb (z =? z')%Z
  | Some z, PBool b => negb (z =? Z.b2z b)%Z
  | _, _ => true
  end.

(** ** Strings *)

Definition is_upper (c : ascii) : bool :=
  let n := nat_of_ascii c in ((65 <=? n) && (n <=? 90))%nat.

Definition is_lower (c : ascii) : bool :=
  let n := nat_of_ascii c in ((97 <=? n) && (n <=? 122))%nat.

Definition is_digit (c : ascii) : bool :=
  let n := nat_of_ascii c in ((48 <=? n) && (n <=? 57))%nat.

Definition lower_char (c : ascii) : ascii :=
  if is_upper c then ascii_of_nat (nat_of_ascii c + 32) else c.

Definition chars (s : string) : list ascii := list_ascii_of_string s.

(** [s.lower()] *)
Definition lower (s : string) : string :=
  string_of_list_ascii (lower_char <$> chars s).

Fixpoint starts_with (p s : list ascii) : bool :=
  match p, s with
  | [], _ => true
  | a :: p', b :: s' => Ascii.eqb a b && starts_with p' s'
  | _ :: _, [] => false
  end.

Fixpoint occurs_in (p s : list ascii) : bool :=
  starts_with p s ||
  match s with
  | [] => false
  | _ :: s' => occurs_in p s'
  end.

(** [p in s] *)
Definition contains (p s : string) : bool := occurs_in (chars p) (chars s).

(** [s.endswith(p)] for one suffix, and for a tuple of suffixes. *)
Definition ends_with (s p : string) : bool :=
  starts_with (rev (chars p)) (rev (chars s)).

Definition endswith (s : string) (suffixes : list string) : bool :=
  existsb (ends_with s) suffixes.

(** [s.isdigit()]: non-empty and digits only. *)
Definition isdigit (s : string) : bool :=
  match chars s with
  | [] => false
  | cs => forallb is_digit cs
  end.

Definition digit_value (c : ascii) : Z := Z.of_nat (nat_of_ascii c) - 48.

(** [int(s)] on a string of digits. *)
Definition int (s : string) : Z :=
  foldl (fun acc c => 10 * acc + digit_value c)%Z 0%Z (chars s).

(** ** [subliminal.subtitle] *)

Module Subtitle.

(** The module [lib/subliminal/subtitle.py] is not part of the sources at
    hand; the matcher takes its comparison as a parameter.  The definitions
    here give that parameter a value, for running the matcher on concrete
    titles. *)

(** Modelled from the spec: the characters that normalization keeps.  The
    spec strips punctuation and diacritics; on byte strings that leaves
    the ASCII letters, the digits and the space. *)
Definition keep (c : ascii) : bool :=
  is_upper c || is_lower c || is_digit c || Ascii.eqb c " ".

(** Modelled from the spec: normalization of a title, "case-folding and
    stripping punctuation/diacritics". *)
Definition sanitize_string (s : string) : string :=
  lower (string_of_list_ascii (filter (fun c => keep c = true) (chars s))).

(** Modelled from the spec: [sanitized_string_equal], missing from the
    sources.  Two strings are equal when their normalized forms are, and
    in partial mode also when one normalized form is a substring of the
    other.  The spec speaks of strings only; here a second operand that
    is not a string raises [TypeError]. *)
Definition sanitized_string_equal
    (string1 : string) (string2 : pyval) (allow_partial : bool) : result bool :=
  match string2 with
  | PStr string2 =>
      let s1 := sanitize_string string1 in
      let s2 := sanitize_string string2 in
      Ok (String.eqb s1 s2 || (allow_partial && (contains s1 s2 || contains s2 s1)))
  | _ => Raise TypeError
  end.

End Subtitle.

(** ** [LegendasTvProvider.matches] *)

Section Matcher.

(** The comparison of [subliminal.subtitle], called with the expected
    title, the actual title (whatever the dictionary holds) and
    [allow_partial]. *)
Variable sanitized_string_equal : string → pyval → bool → result bool.

Definition expected_type_of (expected_season : option Z) : string :=
  if truthy (of_opt expected_season) then "episode" else "movie".

Definition matches (actual_properties : gmap string pyval) (expected_title : string)
    (expected_season expected_episode expected_year : option Z)
    (ignore_episode : bool) : result bool :=
  let expected_type := expected_type_of expected_season in
  if str_ne expected_type (get actual_properties "type") then Ok false
  else if String.eqb expected_type "movie" then
    eq_partial ← sanitized_string_equal expected_title (get actual_properties "title") true;
    if negb eq_partial then Ok false
    else if int_ne expected_year (get actual_properties "year") then
      if truthy (of_opt expected_year) && truthy (get actual_properties "year")
      then Ok false
      else
        eq_exact ← sanitized_string_equal expected_title (get actual_properties "title") false;
        if negb eq_exact then Ok false else Ok true
    else Ok true
  else if String.eqb expected_type "episode" then
    eq_partial ← sanitized_string_equal expected_title (get actual_properties "title") true;
    if negb eq_partial then Ok false
    else if int_ne expected_season (get actual_properties "season") then Ok false
    else if negb ignore_episode && int_ne expected_episode (get actual_properties "episode")
    then Ok false
    else Ok true
  else Ok true.

End Matcher.

(** ** Regular expressions

    The patterns the provider compiles, as values of a backtracking
    matcher with the search order of Python's [re]: alternatives left to
    right, greedy repetitions longest first, lazy ones shortest first.
    Repetition is over one character class, which is all the patterns
    below need. *)

Inductive cclass : Type :=
| CChar (c : ascii)
| CAny
| CDigit.

Inductive regex : Type :=
| Eps
| One (cl : cclass)
| Rep (cl : cclass) (lo : nat) (hi : option nat) (greedy : bool)
| Seq (r1 r2 : regex)
| Alt (r1 r2 : regex)
| Grp (n : nat) (r : regex).

Record compiled : Type := Compile { pattern : regex; ignorecase : bool }.

(** The text of the groups matched so far, the latest first. *)
Definition captures : Type := list (nat * string).

Definition newline : ascii := ascii_of_nat 10.

Definition class_matches (ic : bool) (cl : cclass) (a : ascii) : bool :=
  match cl with
  | CChar c => if ic then Ascii.eqb (lower_char c) (lower_char a) else Ascii.eqb c a
  | CAny => negb (Ascii.eqb a newline)
  | CDigit => is_digit a
  end.

Definition below (count : nat) (hi : option nat) : bool :=
  match hi with
  | None => true
  | Some h => (count <? h)%nat
  end.

Definition or_else (a : option captures) (b : unit → option captures) : option captures :=
  match a with
  | Some c => Some c
  | None => b tt
  end.

Fixpoint rep (ic : bool) (cl : cclass) (lo : nat) (hi : option nat) (greedy : bool)
    (count : nat) (s : list ascii) (caps : captures)
    (k : list ascii → captures → option captures) {struct s} : option captures :=
  let stop := fun _ : unit => if (lo <=? count)%nat then k s caps else None in
  let more := fun _ : unit =>
    match s with
    | a :: s' =>
        if class_matches ic cl a && below count hi
        then rep ic cl lo hi greedy (S count) s' caps k
        else None
    | [] => None
    end in
  if greedy then or_else (more tt) stop else or_else (stop tt) more.

Fixpoint rmatch (ic : bool) (r : regex) (s : list ascii) (caps : captures)
    (k : list ascii → captures → option captures) {struct r} : option captures :=
  match r with
  | Eps => k s caps
  | One cl =>
      match s with
      | a :: s' => if class_matches ic cl a then k s' caps else None
      | [] => None
      end
  | Rep cl lo hi greedy => rep ic cl lo hi greedy 0 s caps k
  | Seq r1 r2 => rmatch ic r1 s caps (fun s' caps' => rmatch ic r2 s' caps' k)
  | Alt r1 r2 => or_else (rmatch ic r1 s caps k) (fun _ => rmatch ic r2 s caps k)
  | Grp n r1 =>
      rmatch ic r1 s caps (fun s' caps' =>
        k s' ((n, string_of_list_ascii (take (List.length s - List.length s') s)) :: caps'))
  end.

(** [p.search(s)]: the match at the leftmost position that has one. *)
Fixpoint search_from (ic : bool) (r : regex) (s : list ascii) : option captures :=
  or_else (rmatch ic r s [] (fun _ caps => Some caps))
    (fun _ => match s with
              | [] => None
              | _ :: s' => search_from ic r s'
              end).

Definition search (p : compiled) (s : string) : option captures :=
  search_from (ignorecase p) (pattern p) (chars s).

(** [p.search(v)] on an arbitrary value: only a string can be searched. *)
Definition re_search (p : compiled) (v : pyval) : result (option captures) :=
  match v with
  | PStr s => Ok (search p s)
  | _ => Raise TypeError
  end.

(** [m.group(n)] *)
Fixpoint group (n : nat) (caps : captures) : pyval :=
  match caps with
  | [] => PNone
  | (i, text) :: rest => if (i =? n)%nat then PStr text else group n rest
  end.

(** [m.group(1) if m else None] *)
Definition group1_or_none (m : option captures) : pyval :=
  match m with
  | Some caps => group 1 caps
  | None => PNone
  end.

Definition Lit (s : string) : regex :=
  foldr (fun c r => Seq (One (CChar c)) r) Eps (chars s).

Definition seq_all (rs : list regex) : regex := foldr Seq Eps rs.

(** ['.*? - (\d{1,2}).*?((emporada)|(Season))'], [re.IGNORECASE] *)
Definition season_re : compiled :=
  Compile
    (seq_all [Rep CAny 0 None false; Lit " - "; Grp 1 (Rep CDigit 1 (Some 2) true);
              Rep CAny 0 None false; Grp 2 (Alt (Grp 3 (Lit "emporada")) (Grp 4 (Lit "Season")))])
    true.

(** ['t{0,2}(\d+)'] *)
Definition imdb_re : compiled :=
  Compile (seq_all [Rep (CChar "t") 0 (Some 2) true; Grp 1 (Rep CDigit 1 None true)]) false.

(** ** [LegendasTvProvider.search_candidates] *)

Definition mapping : list (string * string) :=
  [("id", "id_filme"); ("type", "tipo"); ("title", "dsc_nome"); ("series", "dsc_nome");
   ("season", "temporada"); ("year", "dsc_data_lancamento"); ("title_br", "dsc_nome_br");
   ("imdb_id", "id_imdb")].

Definition type_map : gmap string string :=
  list_to_map [("M", "movie"); ("S", "episode"); ("C", "episode")].

(** [v[k]] for a string key [k]. *)
Definition getitem (v : pyval) (k : string) : result pyval :=
  match v with
  | PDict d =>
      match d !! k with
      | Some x => Ok x
      | None => Raise KeyError
      end
  | _ => Raise TypeError
  end.

(** [{k: entry.get(v) for k, v in mapping.items()}]: only a dictionary has
    [get]. *)
Definition project (entry : pyval) : result (gmap string pyval) :=
  match entry with
  | PDict e => Ok (list_to_map ((fun kv => (kv.1, get e kv.2)) <$> mapping))
  | _ => Raise AttributeError
  end.

(** [type_map.get(key, dflt)]: a list or a dictionary cannot be hashed. *)
Definition type_map_get (key : pyval) (dflt : string) : result string :=
  match key with
  | PStr s => Ok (default dflt (type_map !! s))
  | PList _ | PDict _ => Raise TypeError
  | _ => Ok dflt
  end.

(** [int(field_text) if field_text and field_text.isdigit() else None] *)
Definition coerce (field_text : pyval) : result pyval :=
  if truthy field_text then
    match field_text with
    | PStr s => Ok (if isdigit s then PInt (int s) else PNone)
    | _ => Raise AttributeError
    end
  else Ok PNone.

Fixpoint coerce_fields (fields : list string) (item : gmap string pyval)
    : result (gmap string pyval) :=
  match fields with
  | [] => Ok item
  | field :: rest =>
      v ← coerce (get item field);
      coerce_fields rest (<[field := v]> item)
  end.

(** The body of the loop over [results], up to the call of [matches]:
    one raw hit turned into an item. *)
Definition normalize (hit : pyval) : result (gmap string pyval) :=
  entry ← getitem hit "_source";
  item ← project entry;
  ty ← type_map_get (get item "type") "movie";
  let item := <["type" := PStr ty]> item in
  imdb_match ← re_search imdb_re (get item "imdb_id");
  let item := <["imdb_id" := group1_or_none imdb_match]> item in
  item ← (if negb (truthy (get item "season")) && truthy (get item "title_br")
          then
            season_match ← re_search season_re (get item "title_br");
            Ok (<["season" := group1_or_none season_match]> item)
          else Ok item);
  coerce_fields ["season"; "year"; "imdb_id"] item.

Section Candidates.

Variable sanitized_string_equal : string → pyval → bool → result bool.

Fixpoint search_loop (title : string) (season episode year : option Z)
    (results : list pyval) (candidates : list (gmap string pyval))
    : result (list (gmap string pyval)) :=
  match results with
  | [] => Ok candidates
  | hit :: rest =>
      item ← normalize hit;
      ok ← matches sanitized_string_equal item title season episode year true;
      search_loop title season episode year rest
        (if (ok : bool) then candidates ++ [item] else candidates)
  end.

(** [results] is the parsed response of the suggestion page, which the
    method fetches itself. *)
Definition search_candidates (title : string) (season episode year : option Z)
    (results : list pyval) : result (list (gmap string pyval)) :=
  search_loop title season episode year results [].

End Candidates.

Definition hit_of (source : list (string * pyval)) : pyval :=
  PDict {[ "_source" := PDict (list_to_map source) ]}.

Definition breaking_bad : pyval :=
  hit_of [("id_filme", PStr "24551"); ("id_imdb", PStr "903747"); ("tipo", PStr "S");
          ("dsc_nome", PStr "Breaking Bad"); ("dsc_data_lancamento", PStr "2011");
          ("dsc_nome_br", PStr "Breaking Bad - 4ª Temporada"); ("temporada", PNone)].

(** ** [LegendasTvSubtitle] and the final sort of [query] *)

(** The attributes of a subtitle that identify it and that the sort reads. *)
Record LegendasTvSubtitle : Type := {
  subtitle_id : string;
  name : string;
  no_downloads : option Z;
  rating : option Z;
  featured : bool;
  multiple_episodes : bool
}.

(** [lambda s: (s.featured, s.no_downloads, s.rating, s.multiple_episodes)] *)
Definition key (s : LegendasTvSubtitle) : bool * option Z * option Z * bool :=
  (featured s, no_downloads s, rating s, multiple_episodes s).

(** The order of Python 2 on the components: [False < True], and [None]
    below every number. *)
Definition cmp_bool (a b : bool) : comparison :=
  match a, b with
  | false, true => Lt
  | true, false => Gt
  | _, _ => Eq
  end.

Definition cmp_num (a b : option Z) : comparison :=
  match a, b with
  | None, None => Eq
  | None, Some _ => Lt
  | Some _, None => Gt
  | Some x, Some y => (x ?= y)%Z
  end.

Definition then_cmp (c : comparison) (d : comparison) : comparison :=
  match c with
  | Eq => d
  | _ => c
  end.

(** Tuples compare by their first differing component. *)
Definition cmp_key (k1 k2 : bool * option Z * option Z * bool) : comparison :=
  let '(f1, d1, r1, m1) := k1 in
  let '(f2, d2, r2, m2) := k2 in
  then_cmp (cmp_bool f1 f2) (then_cmp (cmp_num d1 d2) (then_cmp (cmp_num r1 r2) (cmp_bool m1 m2))).

Definition key_lt (a b : LegendasTvSubtitle) : bool :=
  match cmp_key (key a) (key b) with
  | Lt => true
  | _ => false
  end.

(** [subtitles.sort(key=..., reverse=True)].  [list.sort] is stable, also
    with [reverse=True]: subtitles with equal keys keep their order.  The
    sort is written here as an insertion sort, [x] standing before every
    subtitle of [l]: it moves right only past strictly larger keys. *)
Fixpoint insert_desc (x : LegendasTvSubtitle) (l : list LegendasTvSubtitle)
    : list LegendasTvSubtitle :=
  match l with
  | [] => [x]
  | y :: l' => if key_lt x y then y :: insert_desc x l' else x :: y :: l'
  end.

Definition sort_reverse (subtitles : list LegendasTvSubtitle) : list LegendasTvSubtitle :=
  foldr insert_desc [] subtitles.

Definition record (f : bool) (d r : Z) (m : bool) : LegendasTvSubtitle :=
  {| subtitle_id := "560014472eb4d"; name := "Show.S01E01.srt";
     no_downloads := Some d; rating := Some r; featured := f; multiple_episodes := m |}.

(** ** Archives: [_uncompress], [get_subtitle_names], [extract_subtitle] *)

(** What the provider uses of an opened [RarFile] or [ZipFile]: the member
    names and the bytes of a member. *)
Record CompressedFile : Type := {
  namelist : list string;
  read : string → result (list byte)
}.

(** The provider object: the attributes set by [__init__]. *)
Record LegendasTvProvider : Type := {
  username : option string;
  password : option string;
  logged_in : bool
}.

#[global] Instance result_fmap : FMap result := fun A B f m =>
  match m with
  | Ok a => Ok (f a)
  | Raise e => Raise e
  end.

Section Archive.

(** [rarfile] and [zipfile], as functions of the bytes in the buffer. *)
Variable is_rarfile is_zipfile : list byte → bool.
Variable RarFile ZipFile : list byte → result CompressedFile.

(** [SUBTITLE_EXTENSIONS] of [subliminal.video] and [fix_line_ending] of
    [subliminal.subtitle]. *)
Variable SUBTITLE_EXTENSIONS : list string.
Variable fix_line_ending : list byte → list byte.

(** [cf = RarFile(bc) if is_rarfile(bc) else (ZipFile(bc) if
    is_zipfile(bc) else None)] *)
Definition open_archive (content : list byte) : result (option CompressedFile) :=
  if is_rarfile content then Some <$> RarFile content
  else if is_zipfile content then Some <$> ZipFile content
  else Ok None.

(** The buffer is recognized, as RAR first and else as ZIP, and opens as
    [cf]. *)
Definition recognized (content : list byte) (cf : CompressedFile) : Prop :=
  (is_rarfile content = true ∧ RarFile content = Ok cf) ∨
  (is_rarfile content = false ∧ is_zipfile content = true ∧ ZipFile content = Ok cf).

(** [return function(cf, *args, **kwargs) if cf else None]: an opened
    archive object is true.  The result is [None] for Python's [None]. *)
Definition _uncompress {A : Type} (self : LegendasTvProvider) (content : list byte)
    (function : CompressedFile → result A) : result (option A) :=
  cf ← open_archive content;
  match cf with
  | Some cf => Some <$> function cf
  | None => Ok None
  end.

Definition is_subtitle_name (f : string) : bool :=
  negb (contains "legendas.tv" (lower f)) && endswith (lower f) SUBTITLE_EXTENSIONS.

Definition get_subtitle_names (self : LegendasTvProvider) (content : list byte)
    : result (option (list string)) :=
  _uncompress self content (fun cf => Ok (List.filter is_subtitle_name (namelist cf))).

Definition extract_subtitle (self : LegendasTvProvider) (content : list byte)
    (subtitle_name : string) : result (option (list byte)) :=
  _uncompress self content (fun cf => fix_line_ending <$> read cf subtitle_name).

End Archive.

(** A stand-in for the two libraries, to run the archive functions on
    concrete bytes: a buffer starting with [R] holds a RAR archive with no
    members, a buffer starting with [P] a ZIP archive whose member names
    are given, and every member reads as the archive's remaining bytes. *)
Module Demo.

Definition names : list string := ["Show.S01E01.srt"; "legendas.tv.nfo"].

Definition is_rarfile (content : list byte) : bool :=
  match content with
  | b :: _ => Byte.eqb b "R"%byte
  | [] => false
  end.

Definition is_zipfile (content : list byte) : bool :=
  match content with
  | b :: _ => Byte.eqb b "P"%byte
  | [] => false
  end.

Definition member (content : list byte) (members : list string) (n : string)
    : result (list byte) :=
  if existsb (String.eqb n) members then Ok (tail content) else Raise KeyError.

Definition RarFile (content : list byte) : result CompressedFile :=
  Ok {| namelist := []; read := member content [] |}.

Definition ZipFile (content : list byte) : result CompressedFile :=
  Ok {| namelist := names; read := member content names |}.

Definition SUBTITLE_EXTENSIONS : list string := [".srt"; ".sub"].

Definition fix_line_ending (content : list byte) : list byte :=
  List.filter (fun b => negb (Byte.eqb b "013"%byte)) content.

Definition provider : LegendasTvProvider :=
  {| username := None; password := None; logged_in := false |}.

Definition zip_bytes : list byte := ["P"; "K"; "a"; "013"; "010"]%byte.

Definition other_bytes : list byte := ["<"; "h"; "t"; "m"; "l"; ">"]%byte.

End Demo.

(** Guessed properties of a movie release that carries a title and no
    year, and of an episode release. *)
Definition movie_named (title : string) : gmap string pyval :=
  list_to_map [("type", PStr "movie"); ("title", PStr title)].

Definition episode_named (title : string) (season episode : Z) : gmap string pyval :=
  list_to_map [("type", PStr "episode"); ("title", PStr title);
               ("season", PInt season); ("episode", PInt episode)].

(** A comparison function that orders its type: the facts about
    [cmp_key] that the sort relies on. *)
Class Ordering {A : Type} (c : A → A → comparison) : Prop := {
  cmp_opp a b : c b a = CompOpp (c a b);
  cmp_lt_trans a b d : c a b = Lt → c b d = Lt → c a d = Lt;
  cmp_eq_l a b d : c a b = Eq → c a d = c b d
}.

Definition lex {A B : Type} (c : A → A → comparison) (d : B → B → comparison)
    (x y : A * B) : comparison :=
  then_cmp (c x.1 y.1) (d x.2 y.2).

(** No subtitle stands before one with a larger key. *)
Definition descending : list LegendasTvSubtitle → Prop :=
  StronglySorted (fun a b => key_lt a b = false).

(** The four records of the ranking example, in the order of the spec. *)
Definition ranking_example : list LegendasTvSubtitle :=
  [record true 10 8 false; record true 10 8 true; record false 100 10 false;
   record false 0 0 false].

(** ** Specification vocabulary *)

(** The words a pattern matches, and the groups it sets: [denotes ic r w
    caps caps'] says that [r] matches exactly [w], turning the groups
    [caps] into [caps'].  This is the meaning of a pattern without the
    search order. *)
Fixpoint denotes (ic : bool) (r : regex) (w : list ascii) (caps caps' : captures) : Prop :=
  match r with
  | Eps => w = [] ∧ caps' = caps
  | One cl => ∃ a, w = [a] ∧ class_matches ic cl a = true ∧ caps' = caps
  | Rep cl lo hi _ =>
      Forall (fun a => class_matches ic cl a = true) w ∧
      (lo ≤ List.length w)%nat ∧
      match hi with
      | Some h => (List.length w ≤ h)%nat
      | None => True
      end ∧
      caps' = caps
  | Seq r1 r2 =>
      ∃ (w1 w2 : list ascii) caps1,
        w = (w1 ++ w2)%list ∧ denotes ic r1 w1 caps caps1 ∧ denotes ic r2 w2 caps1 caps'
  | Alt r1 r2 => denotes ic r1 w caps caps' ∨ denotes ic r2 w caps caps'
  | Grp n r1 =>
      ∃ caps1, denotes ic r1 w caps caps1 ∧ caps' = (n, string_of_list_ascii w) :: caps1
  end.

(** Some part of [s] is matched by [p], setting the groups [caps]. *)
Definition occurs (p : compiled) (s : string) (caps : captures) : Prop :=
  ∃ before w after : list ascii,
    chars s = (before ++ w ++ after)%list ∧ denotes (ignorecase p) (pattern p) w [] caps.

(** A repetition count within the upper bound of a repetition. *)
Definition within (n : nat) (hi : option nat) : Prop :=
  match hi with
  | Some h => (n ≤ h)%nat
  | None => True
  end.

(** [word] reads [s] up to the case of its letters. *)
Definition caseless (word : list ascii) (s : string) : Prop :=
  lower_char <$> word = lower_char <$> chars s.

(** The shape the season pattern looks for: some text, [" - "], a number
    [n] of one or two digits, some text, and ["emporada"] or ["Season"] in
    any case; the two texts stay on one line. *)
Definition season_phrase (w : list ascii) (n : string) : Prop :=
  ∃ pre mid word : list ascii,
    w = (pre ++ chars " - " ++ chars n ++ mid ++ word)%list ∧
    isdigit n = true ∧ (List.length (chars n) ≤ 2)%nat ∧
    (newline ∉ pre) ∧ (newline ∉ mid) ∧
    (caseless word "emporada" ∨ caseless word "Season").

(** The title has a season phrase with number [n] somewhere. *)
Definition names_season (title : string) (n : string) : Prop :=
  ∃ before w after : list ascii,
    chars title = (before ++ w ++ after)%list ∧ season_phrase w n.



(** The season text that the coercion sees: the raw field, or what the
    pattern finds in the localized title when the raw field is missing. *)
Definition season_text (e : gmap string pyval) : result pyval :=
  if negb (truthy (get e "temporada")) && truthy (get e "dsc_nome_br")
  then group1_or_none <$> re_search season_re (get e "dsc_nome_br")
  else Ok (get e "temporada").


(** The item that [breaking_bad] normalizes to. *)
Definition breaking_bad_item : gmap string pyval :=
  list_to_map [("id", PStr "24551"); ("type", PStr "episode"); ("title", PStr "Breaking Bad");
               ("series", PStr "Breaking Bad"); ("season", PInt 4); ("year", PInt 2011);
               ("title_br", PStr "Breaking Bad - 4ª Temporada"); ("imdb_id", PInt 903747)].


(** [v == e] for [e] either [None] or an [int]: the values that [!=]
    does not tell from [e]. *)
Definition equals_int (e : option Z) (v : pyval) : Prop :=
  match e with
  | None => v = PNone
  | Some z => v = PInt z ∨ v = PBool (Z.eqb z 1) ∧ (z = 0 ∨ z = 1)%Z
  end.

(** The items kept by the loop of [search_candidates]: those whose match
    came out true, in their order. *)
Definition kept (items : list (gmap string pyval)) (oks : list bool)
    : list (gmap string pyval) :=
  (filter (fun p => p.2 = true) (zip items oks)).*1.




(** The source of a hit whose season field says 2 while its localized title
    names season 5. *)
Definition second_season : gmap string pyval :=
  list_to_map [("id_filme", PStr "7"); ("id_imdb", PStr "tt0903747"); ("tipo", PStr "S");
               ("dsc_nome", PStr "Breaking Bad"); ("dsc_data_lancamento", PStr "2009");
               ("dsc_nome_br", PStr "Breaking Bad - 5ª Temporada"); ("temporada", PStr "2")].

(** The digits a text starts with, and the first run of digits of a text. *)
Fixpoint digits_prefix (s : list ascii) : list ascii :=
  match s with
  | a :: s' => if is_digit a then a :: digits_prefix s' else []
  | [] => []
  end.

Fixpoint first_digits (s : list ascii) : list ascii :=
  match s with
  | a :: s' => if is_digit a then digits_prefix s else first_digits s'
  | [] => []
  end.

(** What matching [(\d+)] at the start of a text gives. *)
Definition digits_at (s : list ascii) : option captures :=
  match digits_prefix s with
  | [] => None
  | ds => Some [(1%nat, string_of_list_ascii ds)]
  end.

(** The number that the first run of digits of a string writes, [None]
    for a string without a digit. *)
Definition first_number (s : string) : pyval :=
  match first_digits (chars s) with
  | [] => PNone
  | ds => PInt (int (string_of_list_ascii ds))
  end.

Definition unreadable (is_rarfile is_zipfile : list byte → bool)
    (RarFile ZipFile : list byte → result CompressedFile) (content : list byte) (e : exn)
    : Prop :=
  (is_rarfile content = true ∧ RarFile content = Raise e) ∨
  (is_rarfile content = false ∧ is_zipfile content = true ∧ ZipFile content = Raise e).

(* ===================================================================== *)
(** * Properties *)
(* ===================================================================== *)

(** ** The matcher *)

Section MatcherFacts.

Variable sse : string → pyval → bool → result bool.

Lemma expected_type_falsy (season : option Z) :
  season = None ∨ season = Some 0%Z → expected_type_of season = "movie".
Proof. by intros [-> | ->]. Qed.

Lemma expected_type_movie (season : option Z) :
  truthy (of_opt season) = false → expected_type_of season = "movie".
Proof. unfold expected_type_of. by intros ->. Qed.

(** In the movie branch with equal years (both absent included), the
    partial comparison of the titles is the whole answer. *)
Lemma matches_movie_same_year a title season episode year ignore :
  truthy (of_opt season) = false →
  get a "type" = PStr "movie" →
  int_ne year (get a "year") = false →
  matches sse a title season episode year ignore = sse title (get a "title") true.
Proof.
  intros Hs Ha Hy. unfold matches. rewrite (expected_type_movie _ Hs), Ha, Hy. simpl.
  by destruct (sse title (get a "title") true) as [[]|].
Qed.

(** In the movie branch with different years of which one is missing, a
    match needs the exact comparison to succeed as well. *)
Lemma matches_movie_missing_year a title season episode year ignore :
  truthy (of_opt season) = false →
  get a "type" = PStr "movie" →
  int_ne year (get a "year") = true →
  truthy (of_opt year) && truthy (get a "year") = false →
  matches sse a title season episode year ignore = Ok true →
  sse title (get a "title") true = Ok true ∧ sse title (get a "title") false = Ok true.
Proof.
  intros Hs Ha Hy Hm. unfold matches. rewrite (expected_type_movie _ Hs), Ha, Hy, Hm. simpl.
  destruct (sse title (get a "title") true) as [[]|]; simpl; try done.
  by destruct (sse title (get a "title") false) as [[]|].
Qed.

(** C3: a match with [ignore_episode=False] is still a match with
    [ignore_episode=True], whatever the other arguments are. *)
Theorem matches_ignore_episode_monotone a title season episode year :
  matches sse a title season episode year false = Ok true →
  matches sse a title season episode year true = Ok true.
Proof.
  unfold matches.
  destruct (str_ne _ _); [done|].
  destruct (String.eqb _ "movie"); [done|].
  destruct (String.eqb _ "episode"); [|done].
  destruct (sse title (get a "title") true) as [[]|]; simpl; try done.
  destruct (int_ne season _); [done|].
  by destruct (int_ne episode _).
Qed.

(** C10: with [expected_season] [None] or [0] the expected type is
    ["movie"], and properties of type ["episode"] are rejected. *)
Theorem matches_falsy_season_rejects_episode a title season episode year ignore :
  season = None ∨ season = Some 0%Z →
  get a "type" = PStr "episode" →
  expected_type_of season = "movie" ∧
  matches sse a title season episode year ignore = Ok false.
Proof.
  intros Hs Ha. pose proof (expected_type_falsy season Hs) as He.
  split; [done|]. unfold matches. by rewrite He, Ha.
Qed.

End MatcherFacts.

Lemma matches_ignore_episode_monotone_witness :
  matches Subtitle.sanitized_string_equal (episode_named "Lost" 4 3) "Lost"
    (Some 4%Z) (Some 3%Z) None false = Ok true ∧
  matches Subtitle.sanitized_string_equal (episode_named "Lost" 4 3) "Lost"
    (Some 4%Z) (Some 3%Z) None true = Ok true.
Proof.
  assert (H : matches Subtitle.sanitized_string_equal (episode_named "Lost" 4 3) "Lost"
                (Some 4%Z) (Some 3%Z) None false = Ok true) by (vm_compute; reflexivity).
  split; [exact H|].
  exact (matches_ignore_episode_monotone Subtitle.sanitized_string_equal _ _ _ _ _ H).
Defined.

Lemma matches_falsy_season_rejects_episode_witness :
  get (episode_named "Lost" 0 3) "type" = PStr "episode" ∧
  matches Subtitle.sanitized_string_equal (episode_named "Lost" 0 3) "Lost"
    (Some 0%Z) (Some 3%Z) None false = Ok false.
Proof.
  assert (H : get (episode_named "Lost" 0 3) "type" = PStr "episode") by (vm_compute; reflexivity).
  split; [exact H|].
  exact (proj2 (matches_falsy_season_rejects_episode Subtitle.sanitized_string_equal
                  (episode_named "Lost" 0 3) "Lost" (Some 0%Z) (Some 3%Z) None false
                  (or_intror eq_refl) H)).
Defined.

(** C1, as the code has it: in the movie branch, years that differ with one
    of them missing make a match require the exact comparison of the
    titles; with no year on either side the years are equal and the partial
    comparison decides, so that ["Up"] matches ["Up"] and also ["Up 2"]. *)
Theorem matches_movie_years :
  (∀ sse a title season episode year ignore,
     truthy (of_opt season) = false →
     get a "type" = PStr "movie" →
     (int_ne year (get a "year") = true →
      truthy (of_opt year) && truthy (get a "year") = false →
      matches sse a title season episode year ignore = Ok true →
      sse title (get a "title") false = Ok true) ∧
     (year = None → get a "year" = PNone →
      matches sse a title season episode year ignore = sse title (get a "title") true)) ∧
  matches Subtitle.sanitized_string_equal (movie_named "Up") "Up" None None None false = Ok true ∧
  matches Subtitle.sanitized_string_equal (movie_named "Up 2") "Up" None None None false = Ok true.
Proof.
  split; [|split; vm_compute; reflexivity].
  intros sse a title season episode year ignore Hs Ha. split.
  - intros Hy Hm H. by destruct (matches_movie_missing_year sse _ _ _ _ _ _ Hs Ha Hy Hm H).
  - intros -> Hy. apply matches_movie_same_year; [done..|]. by rewrite Hy.
Qed.

Lemma matches_movie_years_witness :
  matches Subtitle.sanitized_string_equal (movie_named "Up") "Up" None None (Some 2009%Z) false
    = Ok true ∧
  Subtitle.sanitized_string_equal "Up" (get (movie_named "Up") "title") false = Ok true.
Proof.
  assert (H : matches Subtitle.sanitized_string_equal (movie_named "Up") "Up" None None
                (Some 2009%Z) false = Ok true) by (vm_compute; reflexivity).
  split; [exact H|].
  refine (proj1 (proj1 matches_movie_years Subtitle.sanitized_string_equal (movie_named "Up")
                   "Up" None None (Some 2009%Z) false _ _) _ _ H);
    vm_compute; reflexivity.
Defined.

(** C1 as stated fails: with no year on either side, expected ["Up"]
    matches the movie ["Up 2"], whose title is not exactly equal. *)
Lemma matches_up_2_counterexample :
  get (movie_named "Up 2") "year" = PNone ∧
  Subtitle.sanitized_string_equal "Up" (PStr "Up 2") false = Ok false ∧
  matches Subtitle.sanitized_string_equal (movie_named "Up 2") "Up" None None None false
    ≠ Ok false.
Proof. split; [|split]; vm_compute; [reflexivity..|discriminate]. Qed.

(** ** The final sort of [query] *)

#[local] Instance cmp_bool_ordering : Ordering cmp_bool.
Proof. split; [intros [] []|intros [] [] []|intros [] [] []]; done. Qed.

#[local] Instance cmp_num_ordering : Ordering cmp_num.
Proof.
  split.
  - intros [x|] [y|]; simpl; try done. apply Z.compare_antisym.
  - intros [x|] [y|] [z|]; simpl; try done.
    rewrite !Z.compare_lt_iff. lia.
  - intros [x|] [y|] [z|]; simpl; try done.
    intros ->%Z.compare_eq_iff. done.
Qed.

#[local] Instance lex_ordering {A B} (c : A → A → comparison) (d : B → B → comparison) :
  Ordering c → Ordering d → Ordering (lex c d).
Proof.
  intros Hc Hd. split; unfold lex.
  - intros [a1 b1] [a2 b2]; simpl.
    rewrite (cmp_opp (c:=c) a1 a2), (cmp_opp (c:=d) b1 b2).
    by destruct (c a1 a2).
  - intros [a1 b1] [a2 b2] [a3 b3]; simpl.
    destruct (c a1 a2) eqn:E12; simpl; try done.
    + rewrite (cmp_eq_l (c:=c) _ _ a3 E12). destruct (c a2 a3); simpl; try done.
      apply (cmp_lt_trans (c:=d)).
    + intros _. destruct (c a2 a3) eqn:E23; simpl; try done.
      * intros _. assert (c a1 a3 = Lt) as ->; [|done].
        pose proof (cmp_opp (c:=c) a2 a3) as Ho. rewrite E23 in Ho. simpl in Ho.
        pose proof (cmp_eq_l (c:=c) a3 a2 a1 Ho) as He.
        rewrite (cmp_opp (c:=c) a1 a3), (cmp_opp (c:=c) a1 a2), E12 in He. simpl in He.
        by destruct (c a1 a3).
      * intros _. by rewrite (cmp_lt_trans (c:=c) _ _ _ E12 E23).
  - intros [a1 b1] [a2 b2] [a3 b3]; simpl.
    destruct (c a1 a2) eqn:E12; simpl; try done.
    intros Hb. by rewrite (cmp_eq_l (c:=c) _ _ a3 E12), (cmp_eq_l (c:=d) _ _ b3 Hb).
Qed.

Lemma cmp_key_lex k1 k2 :
  cmp_key k1 k2 = lex (lex (lex cmp_bool cmp_num) cmp_num) cmp_bool k1 k2.
Proof.
  destruct k1 as [[[f1 d1] r1] m1], k2 as [[[f2 d2] r2] m2]. unfold lex, cmp_key; simpl.
  destruct (cmp_bool f1 f2), (cmp_num d1 d2), (cmp_num r1 r2); done.
Qed.

#[local] Instance cmp_key_ordering : Ordering cmp_key.
Proof.
  pose proof (lex_ordering _ _ (lex_ordering _ _ (lex_ordering _ _ cmp_bool_ordering cmp_num_ordering) cmp_num_ordering) cmp_bool_ordering) as H.
  split; intros; rewrite ?cmp_key_lex in *.
  - apply (cmp_opp (c:=lex _ _)).
  - by eapply (cmp_lt_trans (c:=lex _ _)).
  - by apply (cmp_eq_l (c:=lex _ _)).
Qed.

Lemma cmp_refl `{Ordering A c} a : c a a = Eq.
Proof. pose proof (cmp_opp a a). by destruct (c a a). Qed.

Lemma cmp_flip `{Ordering A c} a b r : c a b = r → c b a = CompOpp r.
Proof. intros <-. apply cmp_opp. Qed.

Lemma cmp_ge_trans `{Ordering A c} a b d : c a b ≠ Lt → c b d ≠ Lt → c a d ≠ Lt.
Proof.
  intros Hab Hbd Had.
  destruct (c a b) eqn:Eab; [|done|].
  - by rewrite (cmp_eq_l a b d Eab) in Had.
  - apply cmp_flip in Eab; simpl in Eab. apply cmp_flip in Had; simpl in Had.
    destruct (c b d) eqn:Ebd; [|done|].
    + by rewrite <- (cmp_eq_l b d a Ebd), Eab in Had.
    + apply cmp_flip in Ebd; simpl in Ebd.
      by rewrite (cmp_lt_trans _ _ _ Ebd Eab) in Had.
Qed.

Lemma key_lt_asym x y : key_lt x y = true → key_lt y x = false.
Proof.
  unfold key_lt. rewrite (cmp_opp (c:=cmp_key) (key x) (key y)).
  by destruct (cmp_key (key x) (key y)).
Qed.

Lemma key_ge_trans x y z : key_lt x y = false → key_lt y z = false → key_lt x z = false.
Proof.
  unfold key_lt. intros Hxy Hyz.
  pose proof (cmp_ge_trans (c:=cmp_key) (key x) (key y) (key z)) as H.
  destruct (cmp_key (key x) (key y)), (cmp_key (key y) (key z)),
    (cmp_key (key x) (key z)); try done; exfalso; by apply H.
Qed.

Lemma key_lt_ne x y : key_lt x y = true → key x ≠ key y.
Proof.
  unfold key_lt. intros H E. rewrite E, (cmp_refl (c:=cmp_key)) in H. done.
Qed.

Lemma insert_desc_perm x l : insert_desc x l ≡ₚ x :: l.
Proof.
  induction l as [|y l IH]; simpl; [done|].
  destruct (key_lt x y); [|done].
  by rewrite IH, Permutation_swap.
Qed.

Lemma sort_reverse_perm l : sort_reverse l ≡ₚ l.
Proof.
  induction l as [|x l IH]; simpl; [done|].
  unfold sort_reverse in *; simpl. by rewrite insert_desc_perm, IH.
Qed.

Lemma insert_desc_sorted x l : descending l → descending (insert_desc x l).
Proof.
  unfold descending. induction 1 as [|y l Hl IH Hy]; simpl.
  - repeat constructor.
  - destruct (key_lt x y) eqn:E.
    + constructor; [done|]. 
      rewrite Forall_forall. intros z Hz.
      rewrite insert_desc_perm in Hz. apply elem_of_cons in Hz as [->|Hz].
      * by apply key_lt_asym.
      * rewrite Forall_forall in Hy. by apply Hy.
    + constructor; [by constructor|]. constructor; [done|].
      eapply Forall_impl; [exact Hy|]. simpl. intros z Hz. by eapply key_ge_trans.
Qed.

Lemma sort_reverse_sorted l : descending (sort_reverse l).
Proof.
  induction l as [|x l IH]; simpl; [constructor|]. by apply insert_desc_sorted.
Qed.

Lemma insert_desc_filter (k : bool * option Z * option Z * bool) x l :
  filter (fun s => key s = k) (insert_desc x l) = filter (fun s => key s = k) (x :: l).
Proof.
  induction l as [|y l IH]; simpl; [done|].
  destruct (key_lt x y) eqn:E; [|done].
  rewrite filter_cons, IH, !filter_cons.
  apply key_lt_ne in E.
  repeat case_decide; congruence.
Qed.

Lemma sort_reverse_stable (k : bool * option Z * option Z * bool) l :
  filter (fun s => key s = k) (sort_reverse l) = filter (fun s => key s = k) l.
Proof.
  induction l as [|x l IH]; [done|].
  unfold sort_reverse in *; simpl. rewrite insert_desc_filter, !filter_cons, IH. done.
Qed.

Lemma descending_lookup l i j x y :
  descending l → (i < j)%nat → l !! i = Some x → l !! j = Some y → key_lt x y = false.
Proof.
  intros Hl. revert i j. induction Hl as [|a l Hl IH Ha]; intros i j Hij Hi Hj; [done|].
  destruct j as [|j]; [lia|]. simpl in Hj.
  destruct i as [|i]; simpl in Hi.
  - simplify_eq. rewrite Forall_forall in Ha. apply Ha.
    by eapply list_elem_of_lookup_2.
  - apply (IH i j); [lia|done..].
Qed.

Lemma cmp_key_Eq k1 k2 : cmp_key k1 k2 = Eq → k1 = k2.
Proof.
  destruct k1 as [[[f1 d1] r1] m1], k2 as [[[f2 d2] r2] m2]. unfold cmp_key.
  assert (Hb : ∀ a b, cmp_bool a b = Eq → a = b) by (by intros [] []).
  assert (Hn : ∀ a b, cmp_num a b = Eq → a = b).
  { intros [x|] [y|]; simpl; try done. by intros ->%Z.compare_eq_iff. }
  destruct (cmp_bool f1 f2) eqn:Ef; simpl; try done.
  destruct (cmp_num d1 d2) eqn:Ed; simpl; try done.
  destruct (cmp_num r1 r2) eqn:Er; simpl; try done.
  intros Em. by rewrite (Hb _ _ Ef), (Hn _ _ Ed), (Hn _ _ Er), (Hb _ _ Em).
Qed.

Lemma key_ge_antisym x y : key_lt x y = false → key_lt y x = false → key x = key y.
Proof.
  unfold key_lt. intros Hxy Hyx. apply cmp_key_Eq.
  rewrite (cmp_opp (c:=cmp_key) (key x) (key y)) in Hyx.
  by destruct (cmp_key (key x) (key y)).
Qed.

Lemma filter_key_head x l :
  filter (fun s => key s = key x) (x :: l) = x :: filter (fun s => key s = key x) l.
Proof. by rewrite filter_cons, decide_True. Qed.

Lemma elem_of_filter_key x (l : list LegendasTvSubtitle) :
  x ∈ l ↔ x ∈ filter (fun s => key s = key x) l.
Proof. rewrite list_elem_of_filter. split; [by intros ?|by intros [_ ?]]. Qed.

(** Two descending lists with the same subtitles in the same order under
    every key are the same list. *)
Lemma stable_descending_unique l1 : ∀ l2,
  descending l1 → descending l2 →
  (∀ k, filter (fun s => key s = k) l1 = filter (fun s => key s = k) l2) →
  l1 = l2.
Proof.
  induction l1 as [|x l1 IH]; intros l2 H1 H2 Hf.
  - destruct l2 as [|y l2]; [done|]. specialize (Hf (key y)).
    by rewrite filter_key_head in Hf.
  - destruct l2 as [|y l2].
    { specialize (Hf (key x)). by rewrite filter_key_head in Hf. }
    apply StronglySorted_inv in H1 as [H1 Hx]. apply StronglySorted_inv in H2 as [H2 Hy].
    rewrite Forall_forall in Hx, Hy.
    assert (Hk : key x = key y).
    { assert (Hyin : y ∈ x :: l1).
      { rewrite elem_of_filter_key, Hf, <- elem_of_filter_key. by left. }
      assert (Hxin : x ∈ y :: l2).
      { rewrite elem_of_filter_key, <- Hf, <- elem_of_filter_key. by left. }
      apply elem_of_cons in Hyin as [->|Hyin]; [done|].
      apply elem_of_cons in Hxin as [->|Hxin]; [done|].
      by apply key_ge_antisym; auto. }
    assert (x = y) as <-.
    { pose proof (Hf (key x)) as Hfx. rewrite filter_key_head, Hk, filter_key_head in Hfx.
      by injection Hfx. }
    f_equal. apply IH; [done..|]. intros k. specialize (Hf k).
    rewrite !filter_cons in Hf. by case_decide; simplify_eq.
Qed.

(** C2, as the code has it: the sort is a stable descending sort by the
    key tuple, and the only list that is one; [None] is the least number;
    among subtitles equal on (featured, no_downloads, rating) the packs
    come first, since [True] is the larger value of [multiple_episodes]. *)
Theorem sort_reverse_ranking :
  (∀ l, sort_reverse l ≡ₚ l ∧ descending (sort_reverse l) ∧
        ∀ k, filter (fun s => key s = k) (sort_reverse l) = filter (fun s => key s = k) l) ∧
  (∀ l l', descending l' →
     (∀ k, filter (fun s => key s = k) l' = filter (fun s => key s = k) l) →
     l' = sort_reverse l) ∧
  (∀ z, cmp_num None (Some z) = Lt) ∧
  (∀ l (i j : nat) x y,
     (i < j)%nat → sort_reverse l !! i = Some x → sort_reverse l !! j = Some y →
     featured x = featured y → no_downloads x = no_downloads y → rating x = rating y →
     multiple_episodes y = true → multiple_episodes x = true) ∧
  sort_reverse ranking_example =
    [record true 10 8 true; record true 10 8 false; record false 100 10 false;
     record false 0 0 false].
Proof.
  split; [|split; [|split; [done|split; [|done]]]].
  - intros l. split; [apply sort_reverse_perm|]. split; [apply sort_reverse_sorted|].
    intros k. apply sort_reverse_stable.
  - intros l l' Hd Hf. apply stable_descending_unique; [done|apply sort_reverse_sorted|].
    intros k. by rewrite sort_reverse_stable.
  - intros l i j x y Hij Hx Hy Hf Hd Hr Hm.
    pose proof (descending_lookup _ _ _ _ _ (sort_reverse_sorted l) Hij Hx Hy) as H.
    unfold key_lt, key, cmp_key in H. rewrite Hf, Hd, Hr, Hm in H.
    rewrite !(cmp_refl (c:=cmp_bool)), !(cmp_refl (c:=cmp_num)) in H. simpl in H.
    by destruct (multiple_episodes x).
Qed.

Lemma sort_reverse_ranking_witness :
  let l := [record true 10 8 false; record true 10 8 true; record true 10 8 true] in
  sort_reverse l !! 0%nat = Some (record true 10 8 true) ∧
  sort_reverse l !! 1%nat = Some (record true 10 8 true) ∧
  multiple_episodes (record true 10 8 true) = true.
Proof.
  intros l.
  assert (H0 : sort_reverse l !! 0%nat = Some (record true 10 8 true)) by reflexivity.
  assert (H1 : sort_reverse l !! 1%nat = Some (record true 10 8 true)) by reflexivity.
  split; [exact H0|]. split; [exact H1|].
  refine (proj1 (proj2 (proj2 (proj2 sort_reverse_ranking))) l 0%nat 1%nat
            (record true 10 8 true) (record true 10 8 true) _ H0 H1 _ _ _ _);
    [lia|reflexivity..].
Defined.

(** C2 as stated fails: of two subtitles equal on (featured, no_downloads,
    rating) the pack is put first, and the four records of the example do
    not come out in the order they are listed. *)
Lemma sort_reverse_pack_first_counterexample :
  sort_reverse ranking_example ≠ ranking_example ∧
  sort_reverse [record true 10 8 false; record true 10 8 true]
    = [record true 10 8 true; record true 10 8 false].
Proof. split; [discriminate|reflexivity]. Qed.

(** ** Archives *)

Section ArchiveFacts.

#[local] Set Default Proof Using "Type".

Variable is_rarfile is_zipfile : list byte → bool.
Variable RarFile ZipFile : list byte → result CompressedFile.
Variable SUBTITLE_EXTENSIONS : list string.
Variable fix_line_ending : list byte → list byte.

Lemma uncompress_unrecognized {A : Type} self content (f : CompressedFile → result A) :
  is_rarfile content = false → is_zipfile content = false →
  _uncompress is_rarfile is_zipfile RarFile ZipFile self content f = Ok None.
Proof. unfold _uncompress, open_archive. by intros -> ->. Qed.

Lemma uncompress_recognized {A : Type} self content cf (f : CompressedFile → result A) :
  recognized is_rarfile is_zipfile RarFile ZipFile content cf →
  _uncompress is_rarfile is_zipfile RarFile ZipFile self content f = Some <$> f cf.
Proof.
  unfold _uncompress, open_archive.
  by intros [[-> ->] | (-> & -> & ->)].
Qed.

Lemma endswith_one s p suffixes :
  p ∈ suffixes → ends_with s p = true → endswith s suffixes = true.
Proof.
  intros Hp Hs. unfold endswith. apply existsb_exists. exists p.
  split; [by apply list_elem_of_In|done].
Qed.

Lemma subtitle_names_of_archive self content cf :
  recognized is_rarfile is_zipfile RarFile ZipFile content cf →
  get_subtitle_names is_rarfile is_zipfile RarFile ZipFile SUBTITLE_EXTENSIONS self content
  = Ok (Some (List.filter (is_subtitle_name SUBTITLE_EXTENSIONS) (namelist cf))).
Proof. intros Hc. unfold get_subtitle_names. by rewrite (uncompress_recognized _ _ _ _ Hc). Qed.


#[local] Abbreviation recognized := (recognized is_rarfile is_zipfile RarFile ZipFile).
#[local] Abbreviation get_subtitle_names :=
  (get_subtitle_names is_rarfile is_zipfile RarFile ZipFile SUBTITLE_EXTENSIONS).
#[local] Abbreviation extract_subtitle :=
  (extract_subtitle is_rarfile is_zipfile RarFile ZipFile fix_line_ending).

(** C5, as the code has it: on bytes that are neither a RAR nor a ZIP
    archive both functions return [None], and nothing is raised. *)
Theorem unrecognized_returns_none self content subtitle_name :
  is_rarfile content = false → is_zipfile content = false →
  get_subtitle_names self content = Ok None ∧
  extract_subtitle self content subtitle_name = Ok None.
Proof. intros Hr Hz. split; by apply uncompress_unrecognized. Qed.

(** C6: on a recognized archive the names returned are the member names
    whose lowercase form ends with a subtitle extension and does not
    contain ['legendas.tv'], in the order of the archive. *)
Theorem get_subtitle_names_filter self content cf :
  recognized content cf →
  ∃ l, get_subtitle_names self content = Ok (Some l) ∧
       l = List.filter (fun f => endswith (lower f) SUBTITLE_EXTENSIONS
                                 && negb (contains "legendas.tv" (lower f))) (namelist cf) ∧
       (∀ f, f ∈ l ↔ f ∈ namelist cf ∧ endswith (lower f) SUBTITLE_EXTENSIONS = true
                      ∧ contains "legendas.tv" (lower f) = false) ∧
       (namelist cf = ["Show.S01E01.srt"; "legendas.tv.nfo"] →
        ".srt" ∈ SUBTITLE_EXTENSIONS → l = ["Show.S01E01.srt"]).
Proof.
  intros Hc. eexists. split; [by apply subtitle_names_of_archive|].
  split; [|split].
  - apply filter_ext. intros f. unfold is_subtitle_name. apply andb_comm.
  - intros f. rewrite list_elem_of_In, filter_In, <- list_elem_of_In.
    unfold is_subtitle_name. rewrite andb_true_iff, negb_true_iff.
    split; intros (? & ? & ?); auto.
  - intros -> Hsrt. simpl. unfold is_subtitle_name at 1.
    rewrite (endswith_one _ ".srt" _ Hsrt) by reflexivity.
    reflexivity.
Qed.


End ArchiveFacts.

Lemma unrecognized_returns_none_witness :
  Demo.is_rarfile Demo.other_bytes = false ∧
  Demo.is_zipfile Demo.other_bytes = false ∧
  get_subtitle_names Demo.is_rarfile Demo.is_zipfile Demo.RarFile Demo.ZipFile
    Demo.SUBTITLE_EXTENSIONS Demo.provider Demo.other_bytes = Ok None ∧
  extract_subtitle Demo.is_rarfile Demo.is_zipfile Demo.RarFile Demo.ZipFile
    Demo.fix_line_ending Demo.provider Demo.other_bytes "Show.S01E01.srt" = Ok None.
Proof.
  split; [reflexivity|]. split; [reflexivity|].
  apply (unrecognized_returns_none Demo.is_rarfile Demo.is_zipfile Demo.RarFile Demo.ZipFile
           Demo.SUBTITLE_EXTENSIONS Demo.fix_line_ending); reflexivity.
Defined.

(** C5 as stated fails: what comes back for unrecognized bytes is [None],
    not an empty list of names. *)
Lemma unrecognized_names_counterexample :
  Demo.is_rarfile Demo.other_bytes = false ∧
  Demo.is_zipfile Demo.other_bytes = false ∧
  get_subtitle_names Demo.is_rarfile Demo.is_zipfile Demo.RarFile Demo.ZipFile
    Demo.SUBTITLE_EXTENSIONS Demo.provider Demo.other_bytes ≠ Ok (Some []).
Proof. split; [reflexivity|]. split; [reflexivity|]. discriminate. Qed.

Lemma get_subtitle_names_filter_witness :
  let cf := {| namelist := Demo.names; read := Demo.member Demo.zip_bytes Demo.names |} in
  recognized Demo.is_rarfile Demo.is_zipfile Demo.RarFile Demo.ZipFile Demo.zip_bytes cf ∧
  get_subtitle_names Demo.is_rarfile Demo.is_zipfile Demo.RarFile Demo.ZipFile
    Demo.SUBTITLE_EXTENSIONS Demo.provider Demo.zip_bytes = Ok (Some ["Show.S01E01.srt"]).
Proof.
  intros cf.
  assert (Hc : recognized Demo.is_rarfile Demo.is_zipfile Demo.RarFile Demo.ZipFile
                 Demo.zip_bytes cf) by (right; repeat split; reflexivity).
  split; [exact Hc|].
  destruct (get_subtitle_names_filter Demo.is_rarfile Demo.is_zipfile Demo.RarFile
              Demo.ZipFile Demo.SUBTITLE_EXTENSIONS Demo.provider Demo.zip_bytes cf Hc)
    as (l & Hl & _ & _ & Hex).
  rewrite Hl, (Hex eq_refl); [reflexivity|]. apply list_elem_of_here.
Defined.


(** ** Candidates *)





Lemma get_insert_eq (d : gmap string pyval) k v : get (<[k := v]> d) k = v.
Proof. unfold get. by rewrite lookup_insert_eq. Qed.

Lemma get_insert_ne (d : gmap string pyval) k k' v : k ≠ k' → get (<[k := v]> d) k' = get d k'.
Proof. intros H. unfold get. by rewrite lookup_insert_ne. Qed.

Lemma coerce_fields_spec fs (item item' : gmap string pyval) :
  NoDup fs → coerce_fields fs item = Ok item' →
  (∀ f, f ∈ fs → coerce (get item f) = Ok (get item' f)) ∧
  (∀ k, k ∉ fs → get item' k = get item k).
Proof.
  revert item. induction fs as [|f fs IH]; simpl; intros item Hnd H.
  - injection H as <-. split; [by intros f ?%elem_of_nil|done].
  - apply NoDup_cons in Hnd as [Hf Hnd].
    destruct (coerce (get item f)) as [v|e] eqn:Ev; [|done]. simpl in H.
    destruct (IH _ Hnd H) as [IH1 IH2]. split.
    + intros g [->|Hg]%elem_of_cons.
      * by rewrite (IH2 _ Hf), get_insert_eq.
      * rewrite <- (IH1 _ Hg). rewrite get_insert_ne; [done|]. by intros ->.
    + intros k [Hk1 Hk2]%not_elem_of_cons. rewrite (IH2 _ Hk2). by rewrite get_insert_ne.
Qed.

Lemma project_get e item :
  project (PDict e) = Ok item →
  get item "type" = get e "tipo" ∧ get item "imdb_id" = get e "id_imdb" ∧
  get item "season" = get e "temporada" ∧ get item "title_br" = get e "dsc_nome_br" ∧
  get item "year" = get e "dsc_data_lancamento".
Proof.
  intros [= <-]. unfold mapping. simpl. unfold get at 1 3 5 7 9.
  repeat split; by simplify_map_eq.
Qed.


Lemma bind_Ok {A B : Type} (m : result A) (f : A → result B) b :
  m ≫= f = Ok b → ∃ a, m = Ok a ∧ f a = Ok b.
Proof. destruct m as [a|]; [|done]. intros H. by exists a. Qed.

Lemma normalize_inv hit item :
  normalize hit = Ok item →
  ∃ e ty imdb_match text,
    getitem hit "_source" = Ok (PDict e) ∧
    type_map_get (get e "tipo") "movie" = Ok ty ∧
    re_search imdb_re (get e "id_imdb") = Ok imdb_match ∧
    season_text e = Ok text ∧
    get item "type" = PStr ty ∧
    coerce text = Ok (get item "season") ∧
    coerce (get e "dsc_data_lancamento") = Ok (get item "year") ∧
    coerce (group1_or_none imdb_match) = Ok (get item "imdb_id").
Proof.
  unfold normalize. intros H.
  apply bind_Ok in H as (entry & Hentry & H).
  apply bind_Ok in H as (item0 & Hitem0 & H).
  destruct entry as [| | | | |e]; try done.
  destruct (project_get e item0 Hitem0) as (Pty & Pimdb & Pseason & Pbr & Pyear).
  apply bind_Ok in H as (ty & Hty & H). rewrite Pty in Hty.
  apply bind_Ok in H as (imdb_match & Himdb & H).
  rewrite get_insert_ne, Pimdb in Himdb by done.
  apply bind_Ok in H as (item1 & Hitem1 & H).
  rewrite !get_insert_ne, Pseason, Pbr in Hitem1 by done.
  assert (Hnd : NoDup ["season"; "year"; "imdb_id"]) by compute_done.
  destruct (coerce_fields_spec _ _ _ Hnd H) as [Hf Hk].
  exists e, ty, imdb_match. unfold season_text.
  destruct (negb (truthy (get e "temporada")) && truthy (get e "dsc_nome_br")).
  - apply bind_Ok in Hitem1 as (season_match & Hseason & [= <-]).
    exists (group1_or_none season_match). rewrite Hseason.
    repeat split; try done.
    + rewrite Hk by compute_done. by rewrite !get_insert_ne, get_insert_eq by done.
    + rewrite <- Hf by compute_done. by rewrite get_insert_eq.
    + rewrite <- Hf by compute_done. by rewrite !get_insert_ne, Pyear by done.
    + rewrite <- Hf by compute_done. by rewrite get_insert_ne, get_insert_eq by done.
  - injection Hitem1 as <-. exists (get e "temporada").
    repeat split; try done.
    + rewrite Hk by compute_done. by rewrite !get_insert_ne, get_insert_eq by done.
    + rewrite <- Hf by compute_done. by rewrite !get_insert_ne, Pseason by done.
    + rewrite <- Hf by compute_done. by rewrite !get_insert_ne, Pyear by done.
    + rewrite <- Hf by compute_done. by rewrite get_insert_eq.
Qed.



Lemma bind_Ok_l {A B : Type} (a : A) (f : A → result B) : Ok a ≫= f = f a.
Proof. reflexivity. Qed.




Section CandidatesFacts.

#[local] Set Default Proof Using "Type".

Variable sse : string → pyval → bool → result bool.




End CandidatesFacts.




(** ** The matcher against the meaning of patterns *)

Lemma or_else_Some a b c : or_else a b = Some c → a = Some c ∨ b tt = Some c.
Proof. destruct a; simpl; auto. Qed.

Lemma or_else_is_Some a b :
  is_Some a ∨ is_Some (b tt) → is_Some (or_else a b).
Proof. destruct a; simpl; [by eauto|]. by intros [[? [=]]|?]. Qed.

Lemma rep_eq ic cl lo hi greedy count s caps k :
  rep ic cl lo hi greedy count s caps k =
  let stop := fun _ : unit => if (lo <=? count)%nat then k s caps else None in
  let more := fun _ : unit =>
    match s with
    | a :: s' =>
        if class_matches ic cl a && below count hi
        then rep ic cl lo hi greedy (S count) s' caps k
        else None
    | [] => None
    end in
  if greedy then or_else (more tt) stop else or_else (stop tt) more.
Proof. by destruct s. Qed.

Lemma below_within count hi : within count hi → below count hi = true → within (S count) hi.
Proof. destruct hi as [h|]; simpl; [|done]. rewrite Nat.ltb_lt. lia. Qed.

Lemma rep_sound ic cl lo hi greedy s : ∀ count caps k c,
  within count hi →
  rep ic cl lo hi greedy count s caps k = Some c →
  ∃ w s' : list ascii,
    s = (w ++ s')%list ∧ Forall (fun a => class_matches ic cl a = true) w ∧
    (lo ≤ count + List.length w)%nat ∧ within (count + List.length w) hi ∧
    k s' caps = Some c.
Proof.
  induction s as [|a s IH]; intros count caps k c Hw; rewrite rep_eq; cbv zeta.
  - intros H. assert (Hs : (if (lo <=? count)%nat then k [] caps else None) = Some c).
    { destruct greedy; by apply or_else_Some in H as [|]. }
    destruct (lo <=? count)%nat eqn:E; [|done]. apply Nat.leb_le in E.
    exists [], []. rewrite Nat.add_0_r. by repeat split.
  - intros H.
    assert (Hs : (if (lo <=? count)%nat then k (a :: s) caps else None) = Some c ∨
                 (if class_matches ic cl a && below count hi
                  then rep ic cl lo hi greedy (S count) s caps k else None) = Some c).
    { destruct greedy; apply or_else_Some in H as [|]; auto. }
    destruct Hs as [Hs|Hs].
    + destruct (lo <=? count)%nat eqn:E; [|done]. apply Nat.leb_le in E.
      exists [], (a :: s). rewrite Nat.add_0_r. by repeat split.
    + destruct (class_matches ic cl a) eqn:Ea; [|done].
      destruct (below count hi) eqn:Eb; [|done]. simpl in Hs.
      destruct (IH _ _ _ _ (below_within _ _ Hw Eb) Hs) as (w & s' & -> & Hf & Hlo & Hhi & Hk).
      exists (a :: w), s'. simpl. rewrite Nat.add_succ_r.
      repeat split; try done. by constructor.
Qed.

Lemma rmatch_sound ic r : ∀ s caps k c,
  rmatch ic r s caps k = Some c →
  ∃ (w s' : list ascii) caps',
    s = (w ++ s')%list ∧ denotes ic r w caps caps' ∧ k s' caps' = Some c.
Proof.
  induction r as [|cl|cl lo hi greedy|r1 IH1 r2 IH2|r1 IH1 r2 IH2|n r1 IH1];
    intros s caps k c H; simpl in H.
  - by exists [], s, caps.
  - destruct s as [|a s]; [done|]. destruct (class_matches ic cl a) eqn:E; [|done].
    exists [a], s, caps. simpl. by eauto 6.
  - apply rep_sound in H as (w & s' & -> & Hf & Hlo & Hhi & Hk); [|destruct hi; simpl; lia].
    exists w, s', caps. by repeat split.
  - apply IH1 in H as (w1 & s1 & caps1 & -> & H1 & H).
    apply IH2 in H as (w2 & s2 & caps2 & -> & H2 & H).
    exists (w1 ++ w2)%list, s2, caps2. rewrite <- (assoc_L (++)%list). split; [done|].
    split; [|done]. simpl. by eauto 6.
  - apply or_else_Some in H as [H|H].
    + apply IH1 in H as (w & s' & caps' & -> & H1 & H). exists w, s', caps'. simpl. by auto.
    + apply IH2 in H as (w & s' & caps' & -> & H2 & H). exists w, s', caps'. simpl. by auto.
  - apply IH1 in H as (w & s' & caps' & -> & H1 & H).
    rewrite length_app, Nat.add_sub, take_app_length in H.
    exists w, s', ((n, string_of_list_ascii w) :: caps'). simpl. by eauto.
Qed.

Lemma search_from_sound ic r s caps :
  search_from ic r s = Some caps →
  ∃ before w after : list ascii, s = (before ++ w ++ after)%list ∧ denotes ic r w [] caps.
Proof.
  induction s as [|a s IH]; simpl; intros H; apply or_else_Some in H as [H|H].
  - apply rmatch_sound in H as (w & s' & caps' & Hs & Hd & [= <-]).
    exists [], w, s'. by auto.
  - done.
  - apply rmatch_sound in H as (w & s' & caps' & Hs & Hd & [= <-]).
    exists [], w, s'. by auto.
  - apply IH in H as (before & w & after & -> & Hd). exists (a :: before), w, after. by auto.
Qed.

Lemma within_below count n hi : within (count + S n) hi → below count hi = true.
Proof. destruct hi as [h|]; simpl; [|done]. rewrite Nat.ltb_lt. lia. Qed.

Lemma rep_complete ic cl lo hi greedy (w s' : list ascii) caps k : ∀ count,
  Forall (fun a => class_matches ic cl a = true) w →
  (lo ≤ count + List.length w)%nat → within (count + List.length w) hi →
  is_Some (k s' caps) →
  is_Some (rep ic cl lo hi greedy count (w ++ s') caps k).
Proof.
  induction w as [|a w IH]; intros count Hf Hlo Hhi Hk; rewrite rep_eq; cbv zeta.
  - simpl in *. rewrite Nat.add_0_r in Hlo. apply Nat.leb_le in Hlo.
    destruct greedy; apply or_else_is_Some; rewrite Hlo; by auto.
  - apply Forall_cons in Hf as [Ha Hf]. simpl in Hlo, Hhi.
    assert (Hm : is_Some (if class_matches ic cl a && below count hi
                          then rep ic cl lo hi greedy (S count) (w ++ s') caps k else None)).
    { rewrite Ha, (within_below _ _ _ Hhi). simpl.
      apply IH; [done|lia| |done]. by rewrite Nat.add_succ_comm. }
    destruct greedy; apply or_else_is_Some; simpl; by auto.
Qed.

Lemma rmatch_complete ic r : ∀ (w s' : list ascii) caps caps' k,
  denotes ic r w caps caps' → is_Some (k s' caps') →
  is_Some (rmatch ic r (w ++ s') caps k).
Proof.
  induction r as [|cl|cl lo hi greedy|r1 IH1 r2 IH2|r1 IH1 r2 IH2|n r1 IH1];
    intros w s' caps caps' k Hd Hk; simpl in Hd; simpl.
  - by destruct Hd as [-> ->].
  - destruct Hd as (a & -> & Ha & ->). simpl. by rewrite Ha.
  - destruct Hd as (Hf & Hlo & Hhi & ->). by apply rep_complete.
  - destruct Hd as (w1 & w2 & caps1 & -> & H1 & H2). rewrite <- (assoc_L (++)%list).
    eapply IH1; [done|]. by eapply IH2.
  - apply or_else_is_Some. destruct Hd as [H1|H2]; [left|right]; by eauto.
  - destruct Hd as (caps1 & H1 & ->). eapply IH1; [done|].
    by rewrite length_app, Nat.add_sub, take_app_length.
Qed.

Lemma search_from_complete ic r (before w after : list ascii) caps :
  denotes ic r w [] caps → is_Some (search_from ic r (before ++ w ++ after)).
Proof.
  intros Hd.
  assert (Hw : ∀ s, s = (w ++ after)%list → is_Some (search_from ic r s)).
  { intros s ->. destruct (w ++ after)%list eqn:E; simpl; apply or_else_is_Some; left;
      rewrite <- E; by eapply rmatch_complete. }
  induction before as [|a before IH]; [by apply Hw|].
  simpl. apply or_else_is_Some. by right.
Qed.

(** [search] finds a match exactly when the pattern occurs in the string,
    and what it finds is an occurrence. *)
Lemma search_occurs p s :
  (∀ caps, search p s = Some caps → occurs p s caps) ∧
  ((∃ caps, occurs p s caps) → is_Some (search p s)).
Proof.
  unfold search, occurs. split.
  - intros caps. apply search_from_sound.
  - intros (caps & before & w & after & -> & Hd). by eapply search_from_complete.
Qed.

(** ** The season pattern *)

Lemma denotes_Lit_chars ic (cs w : list ascii) caps caps' :
  denotes ic (foldr (fun c r => Seq (One (CChar c)) r) Eps cs) w caps caps' ↔
  Forall2 (fun c a => class_matches ic (CChar c) a = true) cs w ∧ caps' = caps.
Proof.
  revert w caps. induction cs as [|c cs IH]; intros w caps; simpl.
  - split; [intros [-> ->]; by auto|]. by intros [->%Forall2_nil_inv_l ->].
  - split.
    + intros (w1 & w2 & caps1 & -> & (a & -> & Ha & ->) & [Hf ->]%IH). simpl.
      split; [by constructor|done].
    + intros [Hf ->]. apply Forall2_cons_inv_l in Hf as (a & w2 & Ha & Hf & ->).
      exists [a], w2, caps. split; [done|]. split; [by eauto|]. by apply IH.
Qed.

Lemma denotes_Lit ic s w caps caps' :
  denotes ic (Lit s) w caps caps' ↔
  Forall2 (fun c a => class_matches ic (CChar c) a = true) (chars s) w ∧ caps' = caps.
Proof. apply denotes_Lit_chars. Qed.

Lemma caseless_Forall2 (cs w : list ascii) :
  Forall2 (fun c a => class_matches true (CChar c) a = true) cs w ↔
  lower_char <$> w = lower_char <$> cs.
Proof.
  revert w. induction cs as [|c cs IH]; intros w.
  - split; [by intros ->%Forall2_nil_inv_l|]. intros ->%fmap_nil_inv. constructor.
  - split.
    + intros (a & w2 & Ha & Hf & ->)%Forall2_cons_inv_l. simpl in Ha.
      apply Ascii.eqb_eq in Ha. rewrite !fmap_cons, Ha. f_equal. by apply IH.
    + destruct w as [|a w]; [done|]. rewrite !fmap_cons. intros [= Ha Hw].
      constructor; [simpl; by apply Ascii.eqb_eq|by apply IH].
Qed.

Lemma lower_char_space a : lower_char a = " "%char → a = " "%char.
Proof. by destruct a as [[] [] [] [] [] [] [] []]. Qed.

Lemma lower_char_dash a : lower_char a = "-"%char → a = "-"%char.
Proof. by destruct a as [[] [] [] [] [] [] [] []]. Qed.

Lemma caseless_separator w : caseless w " - " ↔ w = chars " - ".
Proof.
  unfold caseless. split; [|by intros ->].
  destruct w as [|a [|b [|c [|]]]]; try done. simpl. intros [= Ha Hb Hc].
  by rewrite (lower_char_space a), (lower_char_dash b), (lower_char_space c).
Qed.

Lemma any_no_newline (w : list ascii) :
  Forall (fun a => class_matches true CAny a = true) w ↔ newline ∉ w.
Proof.
  rewrite Forall_forall. simpl. split.
  - intros H Hin. specialize (H _ Hin). by rewrite Ascii.eqb_refl in H.
  - intros H a Ha. apply negb_true_iff, Ascii.eqb_neq. by intros ->.
Qed.

Lemma chars_of_list (w : list ascii) : chars (string_of_list_ascii w) = w.
Proof. apply list_ascii_of_string_of_list_ascii. Qed.

Lemma of_list_chars (s : string) : string_of_list_ascii (chars s) = s.
Proof. apply string_of_list_ascii_of_string. Qed.

Lemma isdigit_Forall (n : string) :
  isdigit n = true ↔
  Forall (fun a => class_matches true CDigit a = true) (chars n) ∧ (1 ≤ List.length (chars n))%nat.
Proof.
  unfold isdigit. destruct (chars n) as [|a cs].
  - split; [done|]. intros [_ H]. simpl in H. lia.
  - change (forallb is_digit (a :: cs) = true ↔
            Forall (fun a => is_digit a = true) (a :: cs) ∧ (1 ≤ S (List.length cs))%nat).
    rewrite forallb_forall, Forall_forall. setoid_rewrite list_elem_of_In.
    split; [|by intros []]. intros H. split; [done|lia].
Qed.

Lemma season_re_phrase w caps :
  denotes true (pattern season_re) w [] caps →
  ∃ n, group 1 caps = PStr n ∧ season_phrase w n.
Proof.
  unfold season_re, seq_all. cbn -[Lit class_matches].
  intros (pre & w2 & ? & -> & (Hpre & _ & _ & ->) &
          sep & w4 & ? & -> & [Hsep ->]%denotes_Lit &
          N & w6 & ? & -> & (? & (HN & HN1 & HN2 & ->) & ->) &
          mid & w8 & ? & -> & (Hmid & _ & _ & ->) &
          word & ? & ? & -> & (caps6 & Hword & ->) & -> & ->).
  exists (string_of_list_ascii N). split.
  { by destruct Hword as [(? & [_ ->]%denotes_Lit & ->) | (? & [_ ->]%denotes_Lit & ->)]. }
  exists pre, mid, word. rewrite chars_of_list, app_nil_r.
  apply caseless_Forall2, caseless_separator in Hsep as ->.
  split; [done|]. split; [by apply isdigit_Forall; rewrite chars_of_list|].
  split; [done|]. split; [by apply any_no_newline|]. split; [by apply any_no_newline|].
  destruct Hword as [(? & [Hw _]%denotes_Lit & _) | (? & [Hw _]%denotes_Lit & _)];
    [left|right]; by apply caseless_Forall2.
Qed.

Lemma phrase_season_re w n :
  season_phrase w n → ∃ caps, denotes true (pattern season_re) w [] caps.
Proof.
  intros (pre & mid & word & -> & [Hn Hn1]%isdigit_Forall & Hn2 & Hpre & Hmid & Hword).
  unfold season_re, seq_all. cbn -[Lit class_matches].
  destruct Hword as [Hword|Hword]; apply caseless_Forall2 in Hword.
  - exists [(2, string_of_list_ascii word); (3, string_of_list_ascii word); (1, n)].
    exists pre, (chars " - " ++ chars n ++ mid ++ word)%list, [].
    split; [done|]. split; [split; [by apply any_no_newline|split; [lia|done]]|].
    exists (chars " - "), (chars n ++ mid ++ word)%list, [].
    split; [done|]. split; [apply denotes_Lit; split; [by apply caseless_Forall2|done]|].
    exists (chars n), (mid ++ word)%list, [(1, n)].
    split; [done|]. split; [exists []; by rewrite of_list_chars|].
    exists mid, word, [(1, n)].
    split; [done|]. split; [split; [by apply any_no_newline|split; [lia|done]]|].
    exists word, [], [(2, string_of_list_ascii word); (3, string_of_list_ascii word); (1, n)].
    split; [by rewrite app_nil_r|]. split; [|done].
    eexists. split; [|done]. left. eexists. split; [|done]. by apply denotes_Lit.
  - exists [(2, string_of_list_ascii word); (4, string_of_list_ascii word); (1, n)].
    exists pre, (chars " - " ++ chars n ++ mid ++ word)%list, [].
    split; [done|]. split; [split; [by apply any_no_newline|split; [lia|done]]|].
    exists (chars " - "), (chars n ++ mid ++ word)%list, [].
    split; [done|]. split; [apply denotes_Lit; split; [by apply caseless_Forall2|done]|].
    exists (chars n), (mid ++ word)%list, [(1, n)].
    split; [done|]. split; [exists []; by rewrite of_list_chars|].
    exists mid, word, [(1, n)].
    split; [done|]. split; [split; [by apply any_no_newline|split; [lia|done]]|].
    exists word, [], [(2, string_of_list_ascii word); (4, string_of_list_ascii word); (1, n)].
    split; [by rewrite app_nil_r|]. split; [|done].
    eexists. split; [|done]. right. eexists. split; [|done]. by apply denotes_Lit.
Qed.

Lemma search_season_re title caps :
  search season_re title = Some caps →
  ∃ n, group 1 caps = PStr n ∧ names_season title n.
Proof.
  intros (before & w & after & Ht & Hd)%search_occurs.
  destruct (season_re_phrase w caps Hd) as (n & Hg & Hp).
  exists n. split; [done|]. by exists before, w, after.
Qed.

Lemma search_season_re_None title n :
  search season_re title = None → ¬ names_season title n.
Proof.
  intros Hs (before & w & after & Ht & Hp).
  destruct (phrase_season_re w n Hp) as [caps Hd].
  destruct (proj2 (search_occurs season_re title)) as [c Hc]; [|congruence].
  exists caps, before, w, after. by split.
Qed.

Lemma coerce_digits n : isdigit n = true → coerce (PStr n) = Ok (PInt (int n)).
Proof. intros Hn. unfold coerce. destruct n; [done|]. simpl. by rewrite Hn. Qed.

(** C8: when the season field of a hit is missing and its localized title
    is present, the season of the item is the number of a season phrase
    that the title has, which is what the search for the season pattern
    finds, and [None] when the title has no such phrase; the title
    ["Breaking Bad - 4ª Temporada"] gives season 4. *)
Theorem season_from_title :
  (∀ hit e title_br item,
     getitem hit "_source" = Ok (PDict e) →
     truthy (get e "temporada") = false →
     get e "dsc_nome_br" = PStr title_br → title_br ≠ "" →
     normalize hit = Ok item →
     coerce (group1_or_none (search season_re title_br)) = Ok (get item "season") ∧
     ((get item "season" = PNone ∧ ∀ n, ¬ names_season title_br n) ∨
      (∃ n, names_season title_br n ∧ get item "season" = PInt (int n)))) ∧
  names_season "Breaking Bad - 4ª Temporada" "4" ∧
  normalize breaking_bad = Ok breaking_bad_item ∧
  get breaking_bad_item "season" = PInt 4.
Proof.
  split; [|split; [|split; vm_compute; reflexivity]].
  - intros hit e title_br item Hsrc Hseason Hbr Hne Hitem.
    apply normalize_inv in Hitem as (e' & ty & m & text & Hsrc' & _ & _ & Htext & _ & Hc & _).
    assert (e' = e) as -> by congruence.
    unfold season_text in Htext. rewrite Hseason, Hbr in Htext. simpl in Htext.
    apply String.eqb_neq in Hne. rewrite Hne in Htext. simpl in Htext.
    injection Htext as <-. split; [done|].
    destruct (search season_re title_br) as [caps|] eqn:Hs; simpl in Hc.
    + right. destruct (search_season_re _ _ Hs) as (n & Hg & Hn). exists n. split; [done|].
      rewrite Hg in Hc. destruct Hn as (? & ? & ? & _ & ? & ? & ? & _ & Hd & _).
      rewrite (coerce_digits n Hd) in Hc. congruence.
    + left. split; [by injection Hc|]. intros n. by apply search_season_re_None.
  - exists [], (chars "Breaking Bad - 4ª Temporada"), [].
    split; [by rewrite app_nil_r|].
    exists (chars "Breaking Bad"), (chars "ª T"), (chars "emporada").
    split; [reflexivity|]. split; [reflexivity|]. split; [simpl; lia|].
    split; [by compute_done|]. split; [by compute_done|]. by left.
Qed.

Lemma season_from_title_witness :
  getitem breaking_bad "_source"
    = Ok (PDict (list_to_map
        [("id_filme", PStr "24551"); ("id_imdb", PStr "903747"); ("tipo", PStr "S");
         ("dsc_nome", PStr "Breaking Bad"); ("dsc_data_lancamento", PStr "2011");
         ("dsc_nome_br", PStr "Breaking Bad - 4ª Temporada"); ("temporada", PNone)])) ∧
  normalize breaking_bad = Ok breaking_bad_item ∧
  coerce (group1_or_none (search season_re "Breaking Bad - 4ª Temporada"))
    = Ok (get breaking_bad_item "season").
Proof.
  assert (Hn : normalize breaking_bad = Ok breaking_bad_item) by (vm_compute; reflexivity).
  split; [reflexivity|]. split; [exact Hn|].
  refine (proj1 (proj1 season_from_title breaking_bad _ "Breaking Bad - 4ª Temporada"
                   breaking_bad_item eq_refl _ _ _ Hn));
    [vm_compute; reflexivity|vm_compute; reflexivity|discriminate].
Defined.

(** ** More on the matcher *)

Lemma int_ne_false e v : int_ne e v = false ↔ equals_int e v.
Proof.
  destruct e as [z|], v as [|b|z'|s|l|d]; simpl;
    try (split; [done|by intros [?|[? _]]]); try (split; done).
  - rewrite negb_false_iff, Z.eqb_eq. split.
    + intros ->. right. by destruct b; auto.
    + intros [[=]|[[= ->] [->| ->]]]; done.
  - rewrite negb_false_iff, Z.eqb_eq. split; [intros ->; by left|]. by intros [[= ->]|[[=] _]].
Qed.

Lemma str_ne_false e v : str_ne e v = false ↔ v = PStr e.
Proof.
  destruct v as [| | |s| |]; simpl; try (split; done).
  rewrite negb_false_iff, String.eqb_eq. split; [by intros ->|by intros [= ->]].
Qed.

Section MatcherMore.

#[local] Set Default Proof Using "Type".

Variable sse : string → pyval → bool → result bool.

Lemma expected_type_episode z : z ≠ 0%Z → expected_type_of (Some z) = "episode".
Proof. intros Hz. unfold expected_type_of. simpl. by apply Z.eqb_neq in Hz as ->. Qed.

(** X1: for an episode query, [matches] is true exactly when the
    properties are of type ["episode"], the title compares equal in
    partial mode, the season is equal, and the episode is equal or
    ignored. *)
Theorem matches_episode_iff a title z episode year ignore :
  z ≠ 0%Z →
  matches sse a title (Some z) episode year ignore = Ok true ↔
  get a "type" = PStr "episode" ∧
  sse title (get a "title") true = Ok true ∧
  equals_int (Some z) (get a "season") ∧
  (ignore = true ∨ equals_int episode (get a "episode")).
Proof.
  intros Hz. unfold matches. rewrite (expected_type_episode z Hz).
  rewrite <- !int_ne_false, <- str_ne_false.
  set (ty := str_ne "episode" (get a "type")).
  set (ns := int_ne (Some z) (get a "season")).
  set (ne := int_ne episode (get a "episode")).
  destruct ty; simpl; [split; [done|by intros []]|].
  destruct (sse title (get a "title") true) as [[]|]; simpl;
    try (split; [done|by intros (_ & ? & _)]).
  destruct ns; simpl; [split; [done|by intros (_ & _ & ? & _)]|].
  destruct ignore, ne; simpl; split; try done; auto.
  by intros (_ & _ & _ & [|]).
Qed.

(** X2: for a movie query, [matches] is true exactly when the properties
    are of type ["movie"], the title compares equal in partial mode, and
    the years are equal or, one of them being missing, the title compares
    equal exactly. *)
Theorem matches_movie_iff a title season episode year ignore :
  truthy (of_opt season) = false →
  matches sse a title season episode year ignore = Ok true ↔
  get a "type" = PStr "movie" ∧
  sse title (get a "title") true = Ok true ∧
  (equals_int year (get a "year") ∨
   (truthy (of_opt year) = false ∨ truthy (get a "year") = false) ∧
   sse title (get a "title") false = Ok true).
Proof.
  intros Hs. unfold matches. rewrite (expected_type_movie _ Hs).
  rewrite <- !int_ne_false, <- str_ne_false.
  set (ty := str_ne "movie" (get a "type")).
  set (ny := int_ne year (get a "year")).
  destruct ty; simpl; [split; [done|by intros []]|].
  destruct (sse title (get a "title") true) as [[]|]; simpl;
    try (split; [done|by intros (_ & ? & _)]).
  destruct ny; simpl; [|split; by auto].
  destruct (truthy (of_opt year)), (truthy (get a "year")); simpl.
  1: { split; [done|]. intros (_ & _ & [?|[[?|?] _]]); done. }
  all: destruct (sse title (get a "title") false) as [[]|]; simpl;
    (split; [first [done|intros _; split; [done|]; split; [done|]; right; by auto]|]);
    first [done|intros (_ & _ & [?|[_ ?]]); done].
Qed.

(** X3: a type mismatch makes [matches] false without the titles being
    compared, and [matches] raises nothing but what the comparison of the
    titles raises. *)
Theorem matches_raises_only_comparison a title season episode year ignore :
  (str_ne (expected_type_of season) (get a "type") = true →
   matches sse a title season episode year ignore = Ok false) ∧
  (∀ err, matches sse a title season episode year ignore = Raise err →
     get a "type" = PStr (expected_type_of season) ∧
     (sse title (get a "title") true = Raise err ∨
      sse title (get a "title") false = Raise err)).
Proof.
  unfold matches. split; [by intros ->|]. intros err.
  rewrite <- str_ne_false.
  destruct (str_ne _ _); [done|]. intros H. split; [done|].
  destruct (String.eqb _ "movie").
  - destruct (sse title (get a "title") true) as [[]|]; simpl in H; try done; [|by left].
    destruct (int_ne year _); [|done].
    destruct (_ && _); [done|].
    destruct (sse title (get a "title") false) as [[]|]; simpl in H; try done. by right.
  - destruct (String.eqb _ "episode"); [|done].
    destruct (sse title (get a "title") true) as [[]|]; simpl in H; try done; [|by left].
    destruct (int_ne season _); [done|]. by destruct (_ && _).
Qed.

(** X4: [matches] reads the keys type, title, year, season and episode of
    the properties and no other. *)
Theorem matches_reads_five_keys a b title season episode year ignore :
  (∀ k, k ∈ ["type"; "title"; "year"; "season"; "episode"] → get a k = get b k) →
  matches sse a title season episode year ignore
  = matches sse b title season episode year ignore.
Proof.
  intros H. unfold matches.
  by rewrite !(H "type"), !(H "title"), !(H "year"), !(H "season"), !(H "episode")
    by compute_done.
Qed.

End MatcherMore.

Lemma matches_episode_iff_witness :
  4%Z ≠ 0%Z ∧
  matches Subtitle.sanitized_string_equal (episode_named "Lost" 4 3) "Lost"
    (Some 4%Z) (Some 5%Z) None true = Ok true.
Proof.
  assert (Hz : 4%Z ≠ 0%Z) by discriminate.
  split; [exact Hz|].
  apply (proj2 (matches_episode_iff Subtitle.sanitized_string_equal
                  (episode_named "Lost" 4 3) "Lost" 4 (Some 5%Z) None true Hz)).
  split; [reflexivity|]. split; [reflexivity|]. split; [by left|by left].
Defined.

Lemma matches_movie_iff_witness :
  truthy (of_opt None) = false ∧
  matches Subtitle.sanitized_string_equal (movie_named "Up") "Up" None None (Some 2009%Z) false
    = Ok true.
Proof.
  assert (Hs : truthy (of_opt None) = false) by reflexivity.
  split; [exact Hs|].
  apply (proj2 (matches_movie_iff Subtitle.sanitized_string_equal
                  (movie_named "Up") "Up" None None (Some 2009%Z) false Hs)).
  split; [reflexivity|]. split; [reflexivity|]. right. split; [by right|reflexivity].
Defined.

Lemma matches_raises_only_comparison_witness :
  str_ne (expected_type_of (Some 4%Z)) (get (movie_named "Up") "type") = true ∧
  matches (fun _ _ _ => Raise TypeError) (movie_named "Up") "Up" (Some 4%Z) None None false
    = Ok false.
Proof.
  assert (H : str_ne (expected_type_of (Some 4%Z)) (get (movie_named "Up") "type") = true)
    by reflexivity.
  split; [exact H|].
  exact (proj1 (matches_raises_only_comparison (fun _ _ _ => Raise TypeError)
                  (movie_named "Up") "Up" (Some 4%Z) None None false) H).
Defined.

Lemma matches_reads_five_keys_witness :
  let b := <["release_group" := PStr "FoV"]> (movie_named "Up") in
  (∀ k, k ∈ ["type"; "title"; "year"; "season"; "episode"] → get (movie_named "Up") k = get b k) ∧
  matches Subtitle.sanitized_string_equal (movie_named "Up") "Up" None None None false
  = matches Subtitle.sanitized_string_equal b "Up" None None None false.
Proof.
  intros b.
  assert (H : ∀ k, k ∈ ["type"; "title"; "year"; "season"; "episode"] →
              get (movie_named "Up") k = get b k).
  { intros k Hk. repeat (apply elem_of_cons in Hk as [->|Hk]; [reflexivity|]).
    by apply elem_of_nil in Hk. }
  split; [exact H|].
  exact (matches_reads_five_keys Subtitle.sanitized_string_equal (movie_named "Up") b "Up"
           None None None false H).
Defined.

(** ** More on the candidates *)

Lemma kept_cons item ok items oks :
  kept (item :: items) (ok :: oks) = ((if ok then [item] else []) ++ kept items oks)%list.
Proof. unfold kept. simpl. rewrite filter_cons. by destruct ok. Qed.

Section CandidatesMore.

#[local] Set Default Proof Using "Type".

Variable sse : string → pyval → bool → result bool.

Lemma search_loop_kept title season episode year results : ∀ acc candidates,
  search_loop sse title season episode year results acc = Ok candidates ↔
  ∃ items oks,
    Forall2 (fun hit item => normalize hit = Ok item) results items ∧
    Forall2 (fun item ok => matches sse item title season episode year true = Ok ok) items oks ∧
    candidates = (acc ++ kept items oks)%list.
Proof.
  induction results as [|hit rest IH]; intros acc candidates; simpl.
  - split.
    + intros [= <-]. exists [], []. split; [constructor|]. split; [constructor|].
      by rewrite app_nil_r.
    + intros (items & oks & ->%Forall2_nil_inv_l & ->%Forall2_nil_inv_l & ->).
      by rewrite app_nil_r.
  - split.
    + intros H. apply bind_Ok in H as (item & Hitem & H).
      apply bind_Ok in H as (ok & Hok & H).
      apply IH in H as (items & oks & Hn & Hm & ->).
      exists (item :: items), (ok :: oks).
      split; [by constructor|]. split; [by constructor|].
      rewrite kept_cons. destruct ok; by rewrite <- ?app_assoc.
    + intros (items & oks & Hn & Hm & ->).
      apply Forall2_cons_inv_l in Hn as (item & items' & Hitem & Hn & ->).
      apply Forall2_cons_inv_l in Hm as (ok & oks' & Hok & Hm & ->).
      rewrite Hitem, bind_Ok_l, Hok, bind_Ok_l. apply IH.
      exists items', oks'. split; [done|]. split; [done|].
      rewrite kept_cons. destruct ok; by rewrite <- ?app_assoc.
Qed.

(** X5: the candidates are the normalized hits that match the query with
    the episode ignored, in the order of the hits; the call succeeds
    exactly when every hit normalizes and every match returns. *)
Theorem search_candidates_kept title season episode year results candidates :
  search_candidates sse title season episode year results = Ok candidates ↔
  ∃ items oks,
    Forall2 (fun hit item => normalize hit = Ok item) results items ∧
    Forall2 (fun item ok => matches sse item title season episode year true = Ok ok) items oks ∧
    candidates = kept items oks.
Proof. unfold search_candidates. by rewrite search_loop_kept. Qed.

Lemma matches_ignoring_episode a title season e1 e2 year :
  matches sse a title season e1 year true = matches sse a title season e2 year true.
Proof. reflexivity. Qed.

Lemma search_loop_episode title season e1 e2 year results : ∀ acc,
  search_loop sse title season e1 year results acc
  = search_loop sse title season e2 year results acc.
Proof.
  induction results as [|hit rest IH]; intros acc; simpl; [done|].
  destruct (normalize hit) as [item|]; [|done]. rewrite !bind_Ok_l.
  rewrite (matches_ignoring_episode item title season e1 e2 year).
  destruct (matches sse item title season e2 year true) as [ok|]; [|done].
  rewrite !bind_Ok_l. apply IH.
Qed.

(** X6: the episode number of the query plays no part in
    [search_candidates]. *)
Theorem search_candidates_ignores_episode title season e1 e2 year results :
  search_candidates sse title season e1 year results
  = search_candidates sse title season e2 year results.
Proof. apply search_loop_episode. Qed.

End CandidatesMore.

Lemma search_candidates_kept_witness :
  ∃ items oks,
    Forall2 (fun hit item => normalize hit = Ok item) [breaking_bad] items ∧
    Forall2 (fun item ok => matches Subtitle.sanitized_string_equal item "Breaking Bad"
                              (Some 4%Z) None None true = Ok ok) items oks ∧
    [breaking_bad_item] = kept items oks.
Proof.
  apply (proj1 (search_candidates_kept Subtitle.sanitized_string_equal "Breaking Bad"
                  (Some 4%Z) None None [breaking_bad] [breaking_bad_item])).
  vm_compute. reflexivity.
Defined.

Lemma isdigit_truthy s : isdigit s = true → truthy (PStr s) = true.
Proof. by destruct s. Qed.

(** X7: a season field made of digits is the season of the item, and the
    localized title is not consulted. *)
Theorem normalize_explicit_season hit e s item :
  getitem hit "_source" = Ok (PDict e) →
  get e "temporada" = PStr s → isdigit s = true →
  normalize hit = Ok item →
  get item "season" = PInt (int s).
Proof.
  intros Hsrc Hs Hd Hitem.
  apply normalize_inv in Hitem as (e' & ty & m & text & Hsrc' & _ & _ & Htext & _ & Hc & _).
  assert (e' = e) as -> by congruence.
  unfold season_text in Htext. rewrite Hs, (isdigit_truthy s Hd) in Htext. simpl in Htext.
  injection Htext as <-. rewrite (coerce_digits s Hd) in Hc. congruence.
Qed.









Lemma coerce_fields_cons field rest item :
  coerce_fields (field :: rest) item
  = coerce (get item field) ≫= fun v => coerce_fields rest (<[field := v]> item).
Proof. reflexivity. Qed.



Lemma project_copies e item :
  project (PDict e) = Ok item →
  get item "id" = get e "id_filme" ∧ get item "title" = get e "dsc_nome" ∧
  get item "series" = get e "dsc_nome" ∧ get item "title_br" = get e "dsc_nome_br" ∧
  dom item = list_to_set mapping.*1.
Proof.
  intros [= <-]. unfold mapping. simpl. unfold get at 1 3 5 7.
  repeat split; by simplify_map_eq.
Qed.

Lemma coerce_fields_dom fs : ∀ (item item' : gmap string pyval),
  coerce_fields fs item = Ok item' → dom item' = list_to_set fs ∪ dom item.
Proof.
  induction fs as [|f fs IH]; intros item item' H.
  - injection H as <-. set_solver.
  - rewrite coerce_fields_cons in H. apply bind_Ok in H as (v & _ & H).
    rewrite (IH _ _ H), dom_insert_L. set_solver.
Qed.

(** X9: an item has the eight keys of the mapping and no other, and its
    id, title, series and localized title are the raw values, title and
    series being the same one. *)
Theorem normalize_copies hit e item :
  getitem hit "_source" = Ok (PDict e) →
  normalize hit = Ok item →
  dom item = list_to_set ["id"; "type"; "title"; "series"; "season"; "year"; "title_br";
                          "imdb_id"] ∧
  get item "id" = get e "id_filme" ∧
  get item "title" = get e "dsc_nome" ∧ get item "series" = get e "dsc_nome" ∧
  get item "title_br" = get e "dsc_nome_br".
Proof.
  intros Hsrc H. unfold normalize in H. rewrite Hsrc, bind_Ok_l in H.
  apply bind_Ok in H as (item0 & Hitem0 & H).
  destruct (project_copies e item0 Hitem0) as (Pid & Ptitle & Pseries & Pbr & Pdom).
  apply bind_Ok in H as (ty & _ & H).
  apply bind_Ok in H as (m & _ & H).
  apply bind_Ok in H as (item1 & Hitem1 & H).
  assert (Hnd : NoDup ["season"; "year"; "imdb_id"]) by compute_done.
  destruct (coerce_fields_spec _ _ _ Hnd H) as [_ Hk].
  pose proof (coerce_fields_dom _ _ _ H) as Hdom.
  assert (Hsame : ∀ k, k ∉ ["type"; "imdb_id"; "season"] → get item1 k = get item0 k).
  { intros k Hk'. destruct (negb _ && _).
    - apply bind_Ok in Hitem1 as (sm & _ & [= <-]).
      rewrite !get_insert_ne; [done|set_solver..].
    - injection Hitem1 as <-. rewrite !get_insert_ne; [done|set_solver..]. }
  assert (Hdom1 : dom item1 = dom item0).
  { destruct (negb _ && _).
    - apply bind_Ok in Hitem1 as (sm & _ & [= <-]).
      rewrite !dom_insert_L, Pdom. unfold mapping. set_solver.
    - injection Hitem1 as <-. rewrite !dom_insert_L, Pdom. unfold mapping. set_solver. }
  split; [rewrite Hdom, Hdom1, Pdom; unfold mapping; set_solver|].
  rewrite !Hk, !Hsame by compute_done. by auto.
Qed.

Lemma normalize_explicit_season_witness :
  ∃ item, normalize (PDict {[ "_source" := PDict second_season ]}) = Ok item ∧
          get item "season" = PInt (int "2").
Proof.
  set (hit := PDict {[ "_source" := PDict second_season ]}).
  assert (Hsrc : getitem hit "_source" = Ok (PDict second_season)) by reflexivity.
  assert (Hs : get second_season "temporada" = PStr "2") by reflexivity.
  destruct (normalize hit) as [item|] eqn:E; [|vm_compute in E; discriminate].
  exists item. split; [reflexivity|].
  exact (normalize_explicit_season hit second_season "2" item Hsrc Hs eq_refl E).
Defined.

Lemma normalize_copies_witness :
  ∃ item, normalize (PDict {[ "_source" := PDict second_season ]}) = Ok item ∧
          get item "series" = get second_season "dsc_nome".
Proof.
  set (hit := PDict {[ "_source" := PDict second_season ]}).
  assert (Hsrc : getitem hit "_source" = Ok (PDict second_season)) by reflexivity.
  destruct (normalize hit) as [item|] eqn:E; [|vm_compute in E; discriminate].
  exists item. split; [reflexivity|].
  exact (proj1 (proj2 (proj2 (proj2 (normalize_copies hit second_season item Hsrc E))))).
Defined.

(** ** The imdb pattern *)

Lemma digits_prefix_take (s : list ascii) :
  digits_prefix s = take (List.length (digits_prefix s)) s.
Proof.
  induction s as [|a s IH]; simpl; [done|].
  destruct (is_digit a); simpl; [by f_equal|done].
Qed.

Lemma digits_prefix_Forall (s : list ascii) : forallb is_digit (digits_prefix s) = true.
Proof.
  induction s as [|a s IH]; simpl; [done|].
  destruct (is_digit a) eqn:E; simpl; [by rewrite E|done].
Qed.

(** A greedy run of digits in front of a continuation that cannot fail
    takes all the digits there are. *)
Lemma rep_digits_greedy (k : list ascii → captures → option captures) s : ∀ count caps,
  (∀ s' caps', is_Some (k s' caps')) →
  rep false CDigit 1 None true count s caps k
  = if (1 <=? count + List.length (digits_prefix s))%nat
    then k (drop (List.length (digits_prefix s)) s) caps else None.
Proof.
  induction s as [|a s IH]; intros count caps Hk; rewrite rep_eq; cbv zeta.
  - simpl. by rewrite Nat.add_0_r.
  - simpl. destruct (is_digit a) eqn:E; simpl.
    + rewrite IH by done. rewrite Nat.add_succ_r. simpl.
      by destruct (Hk (drop (List.length (digits_prefix s)) s) caps) as [c ->].
    + by rewrite Nat.add_0_r.
Qed.

Lemma digits_group_at s :
  rmatch false (Seq (Grp 1 (Rep CDigit 1 None true)) Eps) s [] (fun _ caps => Some caps)
  = digits_at s.
Proof.
  simpl. rewrite rep_digits_greedy by (intros; by eexists).
  unfold digits_at. rewrite Nat.add_0_l.
  pose proof (digits_prefix_take s) as Ht.
  assert (Hle : (List.length (digits_prefix s) ≤ List.length s)%nat).
  { rewrite Ht at 1. rewrite length_take. lia. }
  destruct (digits_prefix s) as [|d ds] eqn:E; [done|].
  rewrite length_drop. simpl (1 <=? _)%nat. cbv iota.
  replace (List.length s - (List.length s - List.length (d :: ds)))%nat
    with (List.length (d :: ds)) by lia.
  by rewrite <- Ht.
Qed.

Lemma digits_at_not_digit a s : is_digit a = false → digits_at (a :: s) = None.
Proof. intros H. unfold digits_at. simpl. by rewrite H. Qed.

Lemma digits_at_digit a s :
  is_digit a = true →
  digits_at (a :: s) = Some [(1%nat, string_of_list_ascii (digits_prefix (a :: s)))].
Proof. intros H. unfold digits_at. simpl. by rewrite H. Qed.

(** A greedy run of at most two [t] from the start of a text: the
    continuation is tried after two, then one, then none of them. *)
Lemma rep_two_t (k : list ascii → captures → option captures) (s : list ascii) caps :
  rep false (CChar "t") 0 (Some 2) true 0 s caps k
  = match s with
    | "t"%char :: "t"%char :: s2 =>
        or_else (k s2 caps) (fun _ => or_else (k ("t"%char :: s2) caps) (fun _ => k s caps))
    | "t"%char :: s1 => or_else (k s1 caps) (fun _ => k s caps)
    | _ => k s caps
    end.
Proof.
  rewrite rep_eq. cbv zeta. destruct s as [|a s1]; [done|].
  simpl class_matches. destruct (Ascii.eqb_spec "t"%char a) as [<-|Ha].
  - simpl andb. cbv iota. rewrite rep_eq. cbv zeta. destruct s1 as [|b s2]; [done|].
    simpl class_matches. destruct (Ascii.eqb_spec "t"%char b) as [<-|Hb].
    + simpl andb. cbv iota. rewrite rep_eq. cbv zeta.
      destruct s2 as [|c s3]; rewrite ?andb_false_r; simpl; by destruct (k _ caps).
    + simpl. destruct b as [[] [] [] [] [] [] [] []]; done.
  - simpl. destruct a as [[] [] [] [] [] [] [] []]; done.
Qed.

Lemma or_else_None_r a b : b tt = None → or_else a b = a.
Proof. intros H. destruct a; simpl; by rewrite ?H. Qed.

Lemma imdb_re_at (s : list ascii) :
  rmatch false (pattern imdb_re) s [] (fun _ caps => Some caps)
  = match s with
    | "t"%char :: "t"%char :: s2 => digits_at s2
    | "t"%char :: s1 => digits_at s1
    | _ => digits_at s
    end.
Proof.
  assert (Ht : is_digit "t" = false) by reflexivity.
  change (rmatch false (pattern imdb_re) s [] (fun _ caps => Some caps))
    with (rep false (CChar "t") 0 (Some 2) true 0 s []
            (fun s' caps' => rmatch false (Seq (Grp 1 (Rep CDigit 1 None true)) Eps) s' caps'
                               (fun _ caps => Some caps))).
  rewrite rep_two_t. cbv beta.
  destruct s as [|a s1]; [apply digits_group_at|].
  destruct (Ascii.eqb_spec "t"%char a) as [<-|Ha].
  - destruct s1 as [|b s2].
    + rewrite or_else_None_r; [apply digits_group_at|].
      rewrite digits_group_at. by apply digits_at_not_digit.
    + destruct (Ascii.eqb_spec "t"%char b) as [<-|Hb].
      * rewrite or_else_None_r; [apply digits_group_at|].
        rewrite or_else_None_r; rewrite digits_group_at; by apply digits_at_not_digit.
      * transitivity (or_else
          (rmatch false (Seq (Grp 1 (Rep CDigit 1 None true)) Eps) (b :: s2) []
             (fun _ caps => Some caps))
          (fun _ => rmatch false (Seq (Grp 1 (Rep CDigit 1 None true)) Eps)
                      ("t"%char :: b :: s2) [] (fun _ caps => Some caps))).
        { destruct b as [[] [] [] [] [] [] [] []]; done. }
        rewrite or_else_None_r; [rewrite digits_group_at|].
        { destruct b as [[] [] [] [] [] [] [] []]; done. }
        rewrite digits_group_at. by apply digits_at_not_digit.
  - transitivity (rmatch false (Seq (Grp 1 (Rep CDigit 1 None true)) Eps) (a :: s1) []
                    (fun _ caps => Some caps)).
    { destruct a as [[] [] [] [] [] [] [] []]; done. }
    rewrite digits_group_at. destruct a as [[] [] [] [] [] [] [] []]; done.
Qed.

Lemma first_digits_t s : first_digits ("t"%char :: s) = first_digits s.
Proof. reflexivity. Qed.

Lemma digits_at_first a (s : list ascii) c :
  digits_at (a :: s) = Some c →
  c = [(1%nat, string_of_list_ascii (first_digits (a :: s)))] ∧ first_digits (a :: s) ≠ [].
Proof.
  unfold digits_at. simpl. destruct (is_digit a); [|done]. by intros [= <-].
Qed.

Lemma digits_at_None_first a (s : list ascii) :
  digits_at (a :: s) = None → first_digits (a :: s) = first_digits s.
Proof. unfold digits_at. simpl. by destruct (is_digit a). Qed.

Lemma or_else_Some_l c b : or_else (Some c) b = Some c.
Proof. reflexivity. Qed.

Lemma or_else_None_l b : or_else None b = b tt.
Proof. reflexivity. Qed.

Lemma first_match_nonempty (ds : list ascii) :
  ds ≠ [] →
  Some [(1%nat, string_of_list_ascii ds)]
  = match ds with
    | [] => None
    | d :: ds' => Some [(1%nat, string_of_list_ascii (d :: ds'))]
    end.
Proof. by destruct ds. Qed.

(** What the search for the imdb pattern finds is the first run of digits
    of the text. *)
Lemma search_imdb_re (s : list ascii) :
  search_from false (pattern imdb_re) s
  = match first_digits s with
    | [] => None
    | ds => Some [(1%nat, string_of_list_ascii ds)]
    end.
Proof.
  induction s as [|a s1 IH].
  - reflexivity.
  - change (search_from false (pattern imdb_re) (a :: s1))
      with (or_else (rmatch false (pattern imdb_re) (a :: s1) [] (fun _ caps => Some caps))
              (fun _ => search_from false (pattern imdb_re) s1)).
    rewrite imdb_re_at.
    assert (Hfall : digits_at (a :: s1) = None →
              or_else (digits_at (a :: s1)) (fun _ => search_from false (pattern imdb_re) s1)
              = match first_digits (a :: s1) with
                | [] => None
                | ds => Some [(1%nat, string_of_list_ascii ds)]
                end).
    { intros H. rewrite H, (digits_at_None_first _ _ H). apply IH. }
    assert (Hhit : ∀ c, digits_at (a :: s1) = Some c →
              or_else (digits_at (a :: s1)) (fun _ => search_from false (pattern imdb_re) s1)
              = match first_digits (a :: s1) with
                | [] => None
                | ds => Some [(1%nat, string_of_list_ascii ds)]
                end).
    { intros c H. rewrite H. destruct (digits_at_first _ _ _ H) as [-> Hne].
      rewrite or_else_Some_l. by apply first_match_nonempty. }
    destruct (Ascii.eqb_spec "t"%char a) as [<-|Ha].
    + rewrite first_digits_t. destruct s1 as [|b s2]; [done|].
      destruct (Ascii.eqb_spec "t"%char b) as [<-|Hb].
      * rewrite first_digits_t. destruct s2 as [|c s3]; [done|].
        destruct (digits_at (c :: s3)) as [r|] eqn:E.
        -- destruct (digits_at_first _ _ _ E) as [-> Hne].
           rewrite or_else_Some_l. by apply first_match_nonempty.
        -- rewrite or_else_None_l, IH, first_digits_t. done.
      * transitivity (or_else (digits_at (b :: s2))
                        (fun _ => search_from false (pattern imdb_re) (b :: s2))).
        { destruct b as [[] [] [] [] [] [] [] []]; done. }
        destruct (digits_at (b :: s2)) as [r|] eqn:E.
        -- destruct (digits_at_first _ _ _ E) as [-> Hne].
           rewrite or_else_Some_l. by apply first_match_nonempty.
        -- rewrite or_else_None_l. apply IH.
    + transitivity (or_else (digits_at (a :: s1))
                      (fun _ => search_from false (pattern imdb_re) s1)).
      { destruct a as [[] [] [] [] [] [] [] []]; done. }
      destruct (digits_at (a :: s1)) as [r|] eqn:E; [by eapply Hhit|by apply Hfall].
Qed.

Lemma first_digits_Forall (s : list ascii) : forallb is_digit (first_digits s) = true.
Proof.
  induction s as [|a s IH]; [done|].
  change (first_digits (a :: s))
    with (if is_digit a then digits_prefix (a :: s) else first_digits s).
  destruct (is_digit a); [apply digits_prefix_Forall|done].
Qed.

Lemma first_digits_isdigit (s : list ascii) :
  first_digits s ≠ [] → isdigit (string_of_list_ascii (first_digits s)) = true.
Proof.
  intros Hne. unfold isdigit. rewrite chars_of_list.
  pose proof (first_digits_Forall s) as H.
  by destruct (first_digits s).
Qed.

(** X10: the imdb id of an item is the number written by the first run of
    digits of the raw id of the hit, wherever that run stands in the text
    and whatever precedes it, and [None] when the raw id has no digit. *)
Theorem normalize_imdb_id hit e raw item :
  getitem hit "_source" = Ok (PDict e) →
  get e "id_imdb" = PStr raw →
  normalize hit = Ok item →
  get item "imdb_id" = first_number raw.
Proof.
  intros Hsrc Hraw (e' & ty & m & text & He' & _ & Hm & _ & _ & _ & _ & Hid)%normalize_inv.
  assert (e' = e) as -> by congruence.
  rewrite Hraw in Hm. simpl in Hm. injection Hm as <-.
  unfold search in Hid. change (ignorecase imdb_re) with false in Hid.
  rewrite search_imdb_re in Hid. unfold first_number.
  pose proof (first_digits_isdigit (chars raw)) as Hd.
  destruct (first_digits (chars raw)) as [|d ds]; [simpl in Hid; injection Hid as <-; reflexivity|].
  change (group1_or_none _) with (PStr (string_of_list_ascii (d :: ds))) in Hid.
  rewrite coerce_digits in Hid by (by apply Hd). congruence.
Qed.

Lemma normalize_imdb_id_witness :
  ∃ item, normalize (PDict {[ "_source" := PDict second_season ]}) = Ok item ∧
          get item "imdb_id" = first_number "tt0903747".
Proof.
  set (hit := PDict {[ "_source" := PDict second_season ]}).
  assert (Hsrc : getitem hit "_source" = Ok (PDict second_season)) by reflexivity.
  assert (Hs : get second_season "id_imdb" = PStr "tt0903747") by reflexivity.
  destruct (normalize hit) as [item|] eqn:E; [|vm_compute in E; discriminate].
  exists item. split; [reflexivity|].
  exact (normalize_imdb_id hit second_season "tt0903747" item Hsrc Hs E).
Defined.

(** ** Featured subtitles come first *)

Lemma featured_not_lt x y : featured x = true → featured y = false → key_lt x y = false.
Proof. unfold key_lt, key, cmp_key. by intros -> ->. Qed.

Lemma filter_key_featured (k : bool * option Z * option Z * bool) (b : bool) l :
  filter (fun s => key s = k) (filter (fun s => featured s = b) l)
  = if decide (k.1.1.1 = b) then filter (fun s => key s = k) l else [].
Proof.
  induction l as [|x l IH]; [by case_decide|].
  rewrite !filter_cons.
  destruct (decide (featured x = b)) as [Hx|Hx].
  - rewrite filter_cons, IH.
    destruct (decide (key x = k)) as [Hk|Hk]; [|done].
    destruct (decide (k.1.1.1 = b)) as [|Hb]; [done|].
    destruct Hb. subst k. exact Hx.
  - rewrite IH. destruct (decide (key x = k)) as [Hk|Hk]; [|done].
    destruct (decide (k.1.1.1 = b)) as [Hb|]; [|done].
    destruct Hx. subst k. exact Hb.
Qed.

Lemma descending_app (l1 l2 : list LegendasTvSubtitle) :
  descending l1 → descending l2 →
  (∀ x y, x ∈ l1 → y ∈ l2 → key_lt x y = false) →
  descending (l1 ++ l2)%list.
Proof.
  unfold descending. intros H1 H2. induction H1 as [|x l1 H1 IH Hx]; intros H; [done|].
  simpl. constructor.
  - apply IH. intros a b Ha Hb. apply H; [by right|done].
  - apply Forall_app. split; [done|].
    apply Forall_forall. intros y Hy. apply H; [by left|done].
Qed.

(** X11: the sorted list is the featured subtitles, sorted, followed by
    the subtitles that are not featured, sorted: no count of downloads and
    no rating lifts a subtitle above a featured one. *)
Theorem sort_reverse_featured_first l :
  sort_reverse l
  = (sort_reverse (filter (fun s => featured s = true) l)
     ++ sort_reverse (filter (fun s => featured s = false) l))%list.
Proof.
  symmetry. apply stable_descending_unique.
  - apply descending_app; [apply sort_reverse_sorted..|].
    intros x y Hx Hy. rewrite sort_reverse_perm in Hx, Hy.
    apply list_elem_of_filter in Hx as [Hx _], Hy as [Hy _].
    by apply featured_not_lt.
  - apply sort_reverse_sorted.
  - intros k. rewrite filter_app, !sort_reverse_stable, !filter_key_featured.
    destruct k as [[[[] d] r] m]; simpl.
    + by rewrite app_nil_r.
    + done.
Qed.

(** ** Outcomes of the archive functions *)

Section ArchiveMore.

#[local] Set Default Proof Using "Type".

Variable is_rarfile is_zipfile : list byte → bool.
Variable RarFile ZipFile : list byte → result CompressedFile.
Variable SUBTITLE_EXTENSIONS : list string.
Variable fix_line_ending : list byte → list byte.

(** The three ways the opening of a buffer ends. *)
Lemma open_archive_cases content :
  (is_rarfile content = false ∧ is_zipfile content = false ∧
   open_archive is_rarfile is_zipfile RarFile ZipFile content = Ok None) ∨
  (∃ cf, recognized is_rarfile is_zipfile RarFile ZipFile content cf ∧
         open_archive is_rarfile is_zipfile RarFile ZipFile content = Ok (Some cf)) ∨
  (∃ e, unreadable is_rarfile is_zipfile RarFile ZipFile content e ∧
        open_archive is_rarfile is_zipfile RarFile ZipFile content = Raise e).
Proof.
  unfold open_archive, recognized, unreadable.
  destruct (is_rarfile content) eqn:Er.
  - destruct (RarFile content) as [cf|e] eqn:E.
    + right; left. exists cf. split; [by left|done].
    + right; right. exists e. split; [by left|done].
  - destruct (is_zipfile content) eqn:Ez; [|by left].
    destruct (ZipFile content) as [cf|e] eqn:E.
    + right; left. exists cf. split; [by right|done].
    + right; right. exists e. split; [by right|done].
Qed.

Lemma recognized_unique content cf1 cf2 :
  recognized is_rarfile is_zipfile RarFile ZipFile content cf1 →
  recognized is_rarfile is_zipfile RarFile ZipFile content cf2 → cf1 = cf2.
Proof. intros [[? ?]|(? & ? & ?)] [[? ?]|(? & ? & ?)]; congruence. Qed.

Lemma recognized_not_unreadable content cf e :
  recognized is_rarfile is_zipfile RarFile ZipFile content cf →
  ¬ unreadable is_rarfile is_zipfile RarFile ZipFile content e.
Proof. intros [[? ?]|(? & ? & ?)] [[? ?]|(? & ? & ?)]; congruence. Qed.

Lemma unreadable_unique content e1 e2 :
  unreadable is_rarfile is_zipfile RarFile ZipFile content e1 →
  unreadable is_rarfile is_zipfile RarFile ZipFile content e2 → e1 = e2.
Proof. intros [[? ?]|(? & ? & ?)] [[? ?]|(? & ? & ?)]; congruence. Qed.

Lemma recognized_kind content cf :
  recognized is_rarfile is_zipfile RarFile ZipFile content cf →
  ¬ (is_rarfile content = false ∧ is_zipfile content = false).
Proof. intros [[? ?]|(? & ? & ?)] [? ?]; congruence. Qed.

Lemma unreadable_kind content e :
  unreadable is_rarfile is_zipfile RarFile ZipFile content e →
  ¬ (is_rarfile content = false ∧ is_zipfile content = false).
Proof. intros [[? ?]|(? & ? & ?)] [? ?]; congruence. Qed.

Lemma get_subtitle_names_open self content :
  get_subtitle_names is_rarfile is_zipfile RarFile ZipFile SUBTITLE_EXTENSIONS self content
  = cf ← open_archive is_rarfile is_zipfile RarFile ZipFile content;
    match cf with
    | Some cf => Ok (Some (List.filter (is_subtitle_name SUBTITLE_EXTENSIONS) (namelist cf)))
    | None => Ok None
    end.
Proof. reflexivity. Qed.

Lemma extract_subtitle_open self content subtitle_name :
  extract_subtitle is_rarfile is_zipfile RarFile ZipFile fix_line_ending self content subtitle_name
  = cf ← open_archive is_rarfile is_zipfile RarFile ZipFile content;
    match cf with
    | Some cf => Some <$> (fix_line_ending <$> read cf subtitle_name)
    | None => Ok None
    end.
Proof. reflexivity. Qed.

#[local] Abbreviation recognized := (recognized is_rarfile is_zipfile RarFile ZipFile).
#[local] Abbreviation unreadable := (unreadable is_rarfile is_zipfile RarFile ZipFile).
#[local] Abbreviation get_subtitle_names :=
  (get_subtitle_names is_rarfile is_zipfile RarFile ZipFile SUBTITLE_EXTENSIONS).
#[local] Abbreviation extract_subtitle :=
  (extract_subtitle is_rarfile is_zipfile RarFile ZipFile fix_line_ending).

(** X12: both archive functions return [None] exactly on bytes that are
    neither RAR nor ZIP; listing the names raises exactly when the library
    fails to open the buffer, as RAR if it looks like RAR and else as ZIP;
    extraction raises exactly then, or when reading the member from the
    opened archive raises.  Nothing is caught, nothing else is raised. *)
Theorem archive_outcomes self content subtitle_name :
  (get_subtitle_names self content = Ok None
   ↔ is_rarfile content = false ∧ is_zipfile content = false) ∧
  (extract_subtitle self content subtitle_name = Ok None
   ↔ is_rarfile content = false ∧ is_zipfile content = false) ∧
  (∀ e, get_subtitle_names self content = Raise e ↔ unreadable content e) ∧
  (∀ e, extract_subtitle self content subtitle_name = Raise e
        ↔ unreadable content e ∨
          ∃ cf, recognized content cf ∧ read cf subtitle_name = Raise e).
Proof.
  rewrite get_subtitle_names_open, extract_subtitle_open.
  destruct (open_archive_cases content)
    as [(Hr & Hz & ->)|[(cf & Hc & ->)|(e0 & He0 & ->)]]; simpl.
  - assert (Hu : ∀ e, ¬ unreadable content e).
    { intros e [[? _]|(_ & ? & _)]; congruence. }
    assert (Hn : ∀ cf, ¬ recognized content cf).
    { intros cf [[? _]|(_ & ? & _)]; congruence. }
    repeat split; try done.
    + by intros ?%Hu.
    + intros [?%Hu|(cf & ?%Hn & _)]; done.
  - pose proof (recognized_kind _ _ Hc) as Hrz.
    assert (Hu : ∀ e, ¬ unreadable content e).
    { intros e. by eapply recognized_not_unreadable. }
    split; [split; [done|by intros ?%Hrz]|].
    split; [split; [by destruct (read cf subtitle_name)|by intros ?%Hrz]|].
    split; [intros e; split; [done|by intros ?%Hu]|].
    intros e. split.
    + intros He. right. exists cf. split; [done|].
      destruct (read cf subtitle_name); [done|]. simpl in He. congruence.
    + intros [?%Hu|(cf' & Hc' & He)]; [done|].
      rewrite (recognized_unique _ _ _ Hc Hc'), He. done.
  - pose proof (unreadable_kind _ _ He0) as Hrz.
    assert (Hn : ∀ cf, ¬ recognized content cf).
    { intros cf Hc. by eapply recognized_not_unreadable. }
    assert (Hu : ∀ e, unreadable content e → e0 = e).
    { intros e. by apply unreadable_unique. }
    split; [split; [done|by intros ?%Hrz]|].
    split; [split; [done|by intros ?%Hrz]|].
    split; intros e; (split; [intros [= <-]; by auto|]).
    + by intros <-%Hu.
    + intros [<-%Hu|(cf & ?%Hn & _)]; done.
Qed.

(** X13: every name that [get_subtitle_names] lists is a member of the
    archive, so extracting it never gives [None]: the result is the
    member's bytes with the line endings fixed, or what reading the
    member raises. *)
Theorem listed_names_extract self content names n :
  get_subtitle_names self content = Ok (Some names) →
  n ∈ names →
  extract_subtitle self content n ≠ Ok None ∧
  ∃ cf, recognized content cf ∧ n ∈ namelist cf ∧
        extract_subtitle self content n = Some <$> (fix_line_ending <$> read cf n).
Proof.
  rewrite get_subtitle_names_open, extract_subtitle_open.
  destruct (open_archive_cases content)
    as [(Hr & Hz & ->)|[(cf & Hc & ->)|(e0 & He0 & ->)]]; simpl; [done| |done].
  intros [= <-] Hn. split; [by destruct (read cf n)|].
  exists cf. split; [done|]. split; [|done].
  apply list_elem_of_In, filter_In in Hn as [Hn _]. by apply list_elem_of_In.
Qed.

End ArchiveMore.

Lemma listed_names_extract_witness :
  get_subtitle_names Demo.is_rarfile Demo.is_zipfile Demo.RarFile Demo.ZipFile
    Demo.SUBTITLE_EXTENSIONS Demo.provider Demo.zip_bytes = Ok (Some ["Show.S01E01.srt"]) ∧
  extract_subtitle Demo.is_rarfile Demo.is_zipfile Demo.RarFile Demo.ZipFile
    Demo.fix_line_ending Demo.provider Demo.zip_bytes "Show.S01E01.srt" ≠ Ok None.
Proof.
  assert (Hl : get_subtitle_names Demo.is_rarfile Demo.is_zipfile Demo.RarFile Demo.ZipFile
                 Demo.SUBTITLE_EXTENSIONS Demo.provider Demo.zip_bytes
               = Ok (Some ["Show.S01E01.srt"])) by reflexivity.
  split; [exact Hl|].
  exact (proj1 (listed_names_extract Demo.is_rarfile Demo.is_zipfile Demo.RarFile Demo.ZipFile
                  Demo.SUBTITLE_EXTENSIONS Demo.fix_line_ending Demo.provider Demo.zip_bytes
                  ["Show.S01E01.srt"] "Show.S01E01.srt" Hl (list_elem_of_here _ _))).
Defined.
